(** * FHEPredictionMarket: a shallow embedding of the encrypted ledger engine

    The development follows [contracts/FHEPredictionMarket.sol].  Unsigned
    Solidity integers ([uint256], [uint64], [uint8], [address]) are values of
    [N]; the places where the source truncates or where checked arithmetic
    panics are written out.  Storage mappings are finite maps read with the
    all-zero default, storage arrays are lists.  A call either returns a
    value together with the new state or reverts, in which case the caller
    keeps the state it had. *)

From Stdlib Require Import NArith List String Bool Lia.
From stdpp Require Import base option list gmap strings.

Open Scope N_scope.

(** ** Machine integers *)

Abbreviation uint256 := N (only parsing).
Abbreviation address := N (only parsing).
Abbreviation bytes := (list N) (only parsing).

Definition uint64_max : N := 2 ^ 64 - 1.
Definition uint256_max : N := 2 ^ 256 - 1.

(** ** Ciphertext and capability primitives *)

Inductive FheType := EBool | EUint8 | EUint64.

Definition bitwidth (ty : FheType) : N :=
  match ty with EBool => 1 | EUint8 => 8 | EUint64 => 64 end.

(** Modelled from the spec: the FHE library ([@fhevm/solidity/lib/FHE.sol]) is
    an external collaborator.  Its handles are opaque and every operation is
    deterministic in its operands, so a handle is the term that produced it;
    [HNull] is the all-zero handle of a storage slot never written. *)
Inductive handle :=
| HNull
| HEncode (ty : FheType) (v : N)
| HIngest (ty : FheType) (raw : N) (v : N)
| HAdd (a b : handle)
| HEqual (a b : handle)
| HSelect (c a b : handle).

Abbreviation euint64 := handle (only parsing).
Abbreviation euint8 := handle (only parsing).
Abbreviation ebool := handle (only parsing).
Abbreviation externalEuint8 := N (only parsing).

(** Modelled from the spec: what the holder of a decrypt grant reads back.
    Sums are taken in the 64-bit stake width and wrap around. *)
Fixpoint decrypt (h : handle) : N :=
  match h with
  | HNull => 0
  | HEncode ty v => v mod 2 ^ bitwidth ty
  | HIngest ty _ v => v mod 2 ^ bitwidth ty
  | HAdd a b => (decrypt a + decrypt b) mod 2 ^ 64
  | HEqual a b => if decrypt a =? decrypt b then 1 else 0
  | HSelect c a b => if decrypt c =? 0 then decrypt b else decrypt a
  end.

Inductive Principal := Self | Anyone | Account (who : address).

(** One record per primitive invoked, with its operands. *)
Inductive PrimOp :=
| OpEncode (ty : FheType) (v : N)
| OpIngest (ty : FheType) (raw : N)
| OpAdd (a b : handle)
| OpEqual (a b : handle)
| OpSelect (c a b : handle)
| OpGrant (h : handle) (p : Principal).

(** The shape of a primitive: which operation, at which type, for which
    grantee; the ciphertext operands are erased. *)
Inductive OpKind :=
| KEncode (ty : FheType)
| KIngest (ty : FheType)
| KAdd
| KEqual
| KSelect
| KGrant (p : Principal).

Definition op_kind (op : PrimOp) : OpKind :=
  match op with
  | OpEncode ty _ => KEncode ty
  | OpIngest ty _ => KIngest ty
  | OpAdd _ _ => KAdd
  | OpEqual _ _ => KEqual
  | OpSelect _ _ _ => KSelect
  | OpGrant _ p => KGrant p
  end.

(** ** Data model *)

Record Prediction := mkPrediction {
  name : string;
  options : list string;
  optionTotals : list euint64;
  encryptedPool : euint64;
  creator : address;
  createdAt : uint256;
  exists_ : bool
}.

Record BetInfo := mkBetInfo {
  encryptedAmount : euint64;
  encryptedSelection : euint8;
  betExists : bool
}.

Record PredictionSummary := mkSummary {
  summaryId : uint256;
  summaryName : string;
  summaryOptions : list string;
  summaryCreator : address;
  summaryCreatedAt : uint256
}.

Inductive Event :=
| PredictionCreated (predictionId : uint256) (creator : address)
                    (name : string) (optionCount : uint256)
| BetPlaced (predictionId : uint256) (user : address)
            (encryptedAmount encryptedSelection : handle)
            (clearAmount : uint256).

Inductive Error :=
| InvalidPrediction
| InvalidOptionsCount
| EmptyOption
| EmptyName
| BetAlreadyPlaced
| InvalidBetAmount
| ProofInvalid
| Panic (code : N)
| NotPayable.

(** The zero value of each struct: what a mapping returns at a key that was
    never written. *)
Definition zeroPrediction : Prediction :=
  mkPrediction "" [] [] HNull 0 0 false.

Definition zeroBet : BetInfo := mkBetInfo HNull HNull false.

Definition zeroSummary : PredictionSummary := mkSummary 0 "" [] 0 0.

(** Contract storage, the log of primitives the coprocessor was asked to run,
    the emitted events and the value the contract holds. *)
Record State := mkState {
  _nextPredictionId : uint256;
  _predictions : gmap N Prediction;
  _bets : gmap (N * N) BetInfo;
  _predictionIds : list uint256;
  fheLog : list PrimOp;
  eventLog : list Event;
  balance : N
}.

Definition initial : State := mkState 1 ∅ ∅ [] [] [] 0.

Definition prediction (st : State) (predictionId : uint256) : Prediction :=
  match _predictions st !! predictionId with
  | Some p => p
  | None => zeroPrediction
  end.

Definition bet (st : State) (predictionId : uint256) (user : address) : BetInfo :=
  match _bets st !! (predictionId, user) with
  | Some b => b
  | None => zeroBet
  end.

Definition set_nextPredictionId (n : uint256) (st : State) : State :=
  mkState n (_predictions st) (_bets st) (_predictionIds st)
          (fheLog st) (eventLog st) (balance st).

Definition set_prediction (predictionId : uint256) (p : Prediction) (st : State) : State :=
  mkState (_nextPredictionId st) (<[predictionId := p]> (_predictions st)) (_bets st)
          (_predictionIds st) (fheLog st) (eventLog st) (balance st).

Definition set_bet (predictionId : uint256) (user : address) (b : BetInfo) (st : State) : State :=
  mkState (_nextPredictionId st) (_predictions st)
          (<[(predictionId, user) := b]> (_bets st))
          (_predictionIds st) (fheLog st) (eventLog st) (balance st).

Definition push_predictionId (predictionId : uint256) (st : State) : State :=
  mkState (_nextPredictionId st) (_predictions st) (_bets st)
          (_predictionIds st ++ [predictionId]) (fheLog st) (eventLog st) (balance st).

Definition log_prim (op : PrimOp) (st : State) : State :=
  mkState (_nextPredictionId st) (_predictions st) (_bets st) (_predictionIds st)
          (fheLog st ++ [op]) (eventLog st) (balance st).

Definition log_event (ev : Event) (st : State) : State :=
  mkState (_nextPredictionId st) (_predictions st) (_bets st) (_predictionIds st)
          (fheLog st) (eventLog st ++ [ev]) (balance st).

Definition credit (value : N) (st : State) : State :=
  mkState (_nextPredictionId st) (_predictions st) (_bets st) (_predictionIds st)
          (fheLog st) (eventLog st) (balance st + value).

Definition set_name (s : string) (p : Prediction) : Prediction :=
  mkPrediction s (options p) (optionTotals p) (encryptedPool p)
               (creator p) (createdAt p) (exists_ p).

Definition set_options (l : list string) (p : Prediction) : Prediction :=
  mkPrediction (name p) l (optionTotals p) (encryptedPool p)
               (creator p) (createdAt p) (exists_ p).

Definition set_optionTotals (l : list euint64) (p : Prediction) : Prediction :=
  mkPrediction (name p) (options p) l (encryptedPool p)
               (creator p) (createdAt p) (exists_ p).

Definition set_encryptedPool (h : euint64) (p : Prediction) : Prediction :=
  mkPrediction (name p) (options p) (optionTotals p) h
               (creator p) (createdAt p) (exists_ p).

Definition set_creator (a : address) (p : Prediction) : Prediction :=
  mkPrediction (name p) (options p) (optionTotals p) (encryptedPool p)
               a (createdAt p) (exists_ p).

Definition set_createdAt (t : uint256) (p : Prediction) : Prediction :=
  mkPrediction (name p) (options p) (optionTotals p) (encryptedPool p)
               (creator p) t (exists_ p).

Definition set_exists (b : bool) (p : Prediction) : Prediction :=
  mkPrediction (name p) (options p) (optionTotals p) (encryptedPool p)
               (creator p) (createdAt p) b.

(** [prediction.options.push(s)] and [prediction.optionTotals.push(h)]. *)
Definition push_option (s : string) (p : Prediction) : Prediction :=
  set_options (options p ++ [s]) p.

Definition push_optionTotal (h : euint64) (p : Prediction) : Prediction :=
  set_optionTotals (optionTotals p ++ [h]) p.

Definition set_encryptedAmount (h : euint64) (b : BetInfo) : BetInfo :=
  mkBetInfo h (encryptedSelection b) (betExists b).

Definition set_encryptedSelection (h : euint8) (b : BetInfo) : BetInfo :=
  mkBetInfo (encryptedAmount b) h (betExists b).

Definition set_betExists (e : bool) (b : BetInfo) : BetInfo :=
  mkBetInfo (encryptedAmount b) (encryptedSelection b) e.

(** ** Calls that return or revert *)

Inductive Result (A : Type) :=
| Ok (a : A) (st : State)
| Revert (e : Error).

Arguments Ok {A} a st.
Arguments Revert {A} e.

Definition M (A : Type) : Type := State -> Result A.

Definition ret {A} (a : A) : M A := fun st => Ok a st.

Definition bind {A B} (m : M A) (k : A -> M B) : M B :=
  fun st => match m st with
            | Ok a st' => k a st'
            | Revert e => Revert e
            end.

Definition revert {A} (e : Error) : M A := fun _ => Revert e.

Definition get : M State := fun st => Ok st st.

Definition modify (f : State -> State) : M unit := fun st => Ok tt (f st).

Notation "'let*' x ':=' m 'in' k" := (bind m (fun x => k))
  (at level 10, x name, m at level 100, k at level 200).

Notation "m ';;;' k" := (bind m (fun _ => k))
  (at level 100, k at level 200, right associativity).

Definition revert_if (c : bool) (e : Error) : M unit :=
  if c then revert e else ret tt.

(** [prediction.field = v] through the storage pointer. *)
Definition update_prediction (predictionId : uint256)
    (f : Prediction -> Prediction) : M unit :=
  modify (fun st => set_prediction predictionId (f (prediction st predictionId)) st).

(** [betInfo.field = v] through the storage pointer. *)
Definition update_bet (predictionId : uint256) (user : address)
    (f : BetInfo -> BetInfo) : M unit :=
  modify (fun st => set_bet predictionId user (f (bet st predictionId user)) st).

Definition read_prediction (predictionId : uint256) : M Prediction :=
  fun st => Ok (prediction st predictionId) st.

Definition read_bet (predictionId : uint256) (user : address) : M BetInfo :=
  fun st => Ok (bet st predictionId user) st.

Definition emit (ev : Event) : M unit := modify (log_event ev).

(** [for (uint256 i = 0; i < n; i++) body(i)]. *)
Fixpoint for_each {A} (l : list A) (body : A -> M unit) : M unit :=
  match l with
  | [] => ret tt
  | x :: r => body x ;;; for_each r body
  end.

(** An array read; an index past the end panics with code 0x32. *)
Definition array_get {A} (l : list A) (i : nat) : M A :=
  match l !! i with
  | Some x => ret x
  | None => revert (Panic 50)
  end.

Section Engine.

(** Modelled from the spec: the input verifier of the FHE library.  It yields
    the plaintext that a proof attests for an externally supplied handle, or
    nothing when the proof does not match. *)
Variable verifyInput : externalEuint8 -> bytes -> option N.

(** Modelled from the spec: the primitives of the FHE library that the
    contract calls (section 4.1).  Each is recorded in the log and returns
    the handle of its result; a grant returns the handle it was given.
    [FHE_add] is the [euint64] addition, [FHE_eq] the [euint8] equality and
    [FHE_select] the [euint64] select. *)
Definition prim (op : PrimOp) : M unit := modify (log_prim op).

Definition FHE_asEuint64 (v : N) : M euint64 :=
  prim (OpEncode EUint64 v) ;;; ret (HEncode EUint64 v).

Definition FHE_asEuint8 (v : N) : M euint8 :=
  prim (OpEncode EUint8 v) ;;; ret (HEncode EUint8 v).

Definition FHE_fromExternal (raw : externalEuint8) (inputProof : bytes) : M euint8 :=
  match verifyInput raw inputProof with
  | Some v => prim (OpIngest EUint8 raw) ;;; ret (HIngest EUint8 raw v)
  | None => revert ProofInvalid
  end.

Definition FHE_add (a b : euint64) : M euint64 :=
  prim (OpAdd a b) ;;; ret (HAdd a b).

Definition FHE_eq (a b : euint8) : M ebool :=
  prim (OpEqual a b) ;;; ret (HEqual a b).

Definition FHE_select (c : ebool) (a b : euint64) : M euint64 :=
  prim (OpSelect c a b) ;;; ret (HSelect c a b).

Definition FHE_allowThis (h : handle) : M handle :=
  prim (OpGrant h Self) ;;; ret h.

Definition FHE_makePubliclyDecryptable (h : handle) : M handle :=
  prim (OpGrant h Anyone) ;;; ret h.

Definition FHE_allow (h : handle) (who : address) : M handle :=
  prim (OpGrant h (Account who)) ;;; ret h.

(** ** createPrediction *)

Definition createPrediction (msg_sender : address) (block_timestamp : uint256)
    (name : string) (options : list string) : M uint256 :=
  revert_if (String.length name =? 0)%nat EmptyName ;;;
  revert_if ((length options <? 2)%nat || (4 <? length options)%nat)
            InvalidOptionsCount ;;;
  for_each options (fun option =>
    revert_if (String.length option =? 0)%nat EmptyOption) ;;;
  let* st := get in
  let predictionId := _nextPredictionId st in
  revert_if (predictionId =? uint256_max) (Panic 17) ;;;
  modify (set_nextPredictionId (predictionId + 1)) ;;;
  update_prediction predictionId (set_name name) ;;;
  update_prediction predictionId (set_creator msg_sender) ;;;
  update_prediction predictionId (set_createdAt block_timestamp) ;;;
  update_prediction predictionId (set_exists true) ;;;
  let* zeroValue := FHE_asEuint64 0 in
  let* zeroValue := FHE_allowThis zeroValue in
  let* zeroValue := FHE_makePubliclyDecryptable zeroValue in
  let* zeroValue := FHE_allow zeroValue msg_sender in
  update_prediction predictionId (set_encryptedPool zeroValue) ;;;
  for_each options (fun option =>
    update_prediction predictionId (push_option option) ;;;
    let* optionTotal := FHE_asEuint64 0 in
    let* optionTotal := FHE_allowThis optionTotal in
    let* optionTotal := FHE_makePubliclyDecryptable optionTotal in
    let* optionTotal := FHE_allow optionTotal msg_sender in
    update_prediction predictionId (push_optionTotal optionTotal)) ;;;
  modify (push_predictionId predictionId) ;;;
  emit (PredictionCreated predictionId msg_sender name (N.of_nat (length options))) ;;;
  ret predictionId.

(** ** placeEncryptedBet *)

(** One turn of the aggregation loop, lines 145 to 151; [uint8(i)] keeps the
    low eight bits of the index. *)
Definition aggregate_option (msg_sender : address) (predictionId : uint256)
    (selection : euint8) (encryptedAmount zeroAddition : euint64) (i : nat) : M unit :=
  let* index := FHE_asEuint8 (N.of_nat i mod 2 ^ 8) in
  let* matchesOption := FHE_eq selection index in
  let* addition := FHE_select matchesOption encryptedAmount zeroAddition in
  let* p := read_prediction predictionId in
  let* total := array_get (optionTotals p) i in
  let* newTotal := FHE_add total addition in
  let* newTotal := FHE_allowThis newTotal in
  let* newTotal := FHE_makePubliclyDecryptable newTotal in
  let* newTotal := FHE_allow newTotal msg_sender in
  update_prediction predictionId
    (fun p => set_optionTotals (<[i := newTotal]> (optionTotals p)) p).

Definition placeEncryptedBet (msg_sender : address) (msg_value : uint256)
    (predictionId : uint256) (encryptedSelection : externalEuint8)
    (inputProof : bytes) : M unit :=
  let* p := read_prediction predictionId in
  revert_if (negb (exists_ p)) InvalidPrediction ;;;
  revert_if (length (optionTotals p) =? 0)%nat InvalidOptionsCount ;;;
  revert_if ((msg_value =? 0) || (uint64_max <? msg_value)) InvalidBetAmount ;;;
  let* betInfo := read_bet predictionId msg_sender in
  revert_if (betExists betInfo) BetAlreadyPlaced ;;;
  let* selection := FHE_fromExternal encryptedSelection inputProof in
  let* selection := FHE_allowThis selection in
  let* selection := FHE_allow selection msg_sender in
  let* encryptedAmount := FHE_asEuint64 (msg_value mod 2 ^ 64) in
  let* encryptedAmount := FHE_allowThis encryptedAmount in
  let* encryptedAmount := FHE_allow encryptedAmount msg_sender in
  let* p := read_prediction predictionId in
  let* pool := FHE_add (encryptedPool p) encryptedAmount in
  update_prediction predictionId (set_encryptedPool pool) ;;;
  let* p := read_prediction predictionId in
  let* pool := FHE_allowThis (encryptedPool p) in
  update_prediction predictionId (set_encryptedPool pool) ;;;
  let* p := read_prediction predictionId in
  let* pool := FHE_makePubliclyDecryptable (encryptedPool p) in
  update_prediction predictionId (set_encryptedPool pool) ;;;
  let* p := read_prediction predictionId in
  let* pool := FHE_allow (encryptedPool p) msg_sender in
  update_prediction predictionId (set_encryptedPool pool) ;;;
  let* zeroAddition := FHE_asEuint64 0 in
  let* zeroAddition := FHE_allowThis zeroAddition in
  (* the loop bound [prediction.optionTotals.length]: the loop assigns in
     place, so the length read on entry is the length at every test *)
  let* p := read_prediction predictionId in
  for_each (seq 0 (length (optionTotals p)))
    (aggregate_option msg_sender predictionId selection encryptedAmount zeroAddition) ;;;
  update_bet predictionId msg_sender (set_encryptedAmount encryptedAmount) ;;;
  update_bet predictionId msg_sender (set_encryptedSelection selection) ;;;
  update_bet predictionId msg_sender (set_betExists true) ;;;
  emit (BetPlaced predictionId msg_sender encryptedAmount selection msg_value).

(** ** Read accessors *)

(** [copy[i] = source[i]] for every index of a fresh array of the same
    length. *)
Definition _copyOptions (source : list string) : list string :=
  fold_left (fun copy i => <[i := nth i source ""]> copy)
            (seq 0 (length source)) (replicate (length source) "").

Definition _copyEncryptedTotals (source : list euint64) : list euint64 :=
  fold_left (fun copy i => <[i := nth i source HNull]> copy)
            (seq 0 (length source)) (replicate (length source) HNull).

Definition summary_of (predictionId : uint256) (p : Prediction) : PredictionSummary :=
  mkSummary predictionId (name p) (_copyOptions (options p)) (creator p) (createdAt p).

(** The loop of [listPredictions]: a slot whose prediction does not exist is
    passed over by [continue] and keeps the zero summary it was allocated
    with. *)
Definition listPredictions_step (st : State)
    (summaries : list PredictionSummary) (i : nat) : list PredictionSummary :=
  let predictionId := nth i (_predictionIds st) 0 in
  let p := prediction st predictionId in
  if negb (exists_ p) then summaries
  else <[i := summary_of predictionId p]> summaries.

Definition listPredictions : M (list PredictionSummary) :=
  let* st := get in
  let n := length (_predictionIds st) in
  ret (fold_left (listPredictions_step st) (seq 0 n) (replicate n zeroSummary)).

Definition getPredictionMetadata (predictionId : uint256) : M PredictionSummary :=
  let* p := read_prediction predictionId in
  revert_if (negb (exists_ p)) InvalidPrediction ;;;
  ret (summary_of predictionId p).

Definition getEncryptedTotals (predictionId : uint256) : M (list euint64 * euint64) :=
  let* p := read_prediction predictionId in
  revert_if (negb (exists_ p)) InvalidPrediction ;;;
  let totals := _copyEncryptedTotals (optionTotals p) in
  ret (totals, encryptedPool p).

Definition getUserBet (predictionId : uint256) (user : address)
    : M (euint64 * euint8 * bool) :=
  let* p := read_prediction predictionId in
  revert_if (negb (exists_ p)) InvalidPrediction ;;;
  let* b := read_bet predictionId user in
  ret (encryptedAmount b, encryptedSelection b, betExists b).

Definition getPredictionCount : M uint256 :=
  let* st := get in
  ret (N.of_nat (length (_predictionIds st))).

(** ** Transactions *)

Inductive Call :=
| CreatePrediction (name : string) (options : list string)
| PlaceEncryptedBet (predictionId : uint256) (encryptedSelection : externalEuint8)
                    (inputProof : bytes)
| ListPredictions
| GetPredictionMetadata (predictionId : uint256)
| GetEncryptedTotals (predictionId : uint256)
| GetUserBet (predictionId : uint256) (user : address)
| GetPredictionCount.

Record Tx := mkTx {
  msg_sender : address;
  msg_value : uint256;
  block_timestamp : uint256;
  call : Call
}.

Inductive RetVal :=
| RUnit
| RUint (n : uint256)
| RSummaries (l : list PredictionSummary)
| RSummary (s : PredictionSummary)
| RTotals (totals : list euint64) (pool : euint64)
| RUserBet (amount : euint64) (selection : euint8) (hasBet : bool).

(** Only [placeEncryptedBet] is declared [payable]. *)
Definition payable (c : Call) : bool :=
  match c with
  | PlaceEncryptedBet _ _ _ => true
  | _ => false
  end.

Definition fmap_ret {A} (f : A -> RetVal) (m : M A) : M RetVal :=
  let* a := m in ret (f a).

(** The entry points.  A call that carries value to a function that is not
    payable reverts before the body runs; otherwise the value is credited to
    the contract and the body runs.  The contract has no receive or fallback
    function, and no body sends value. *)
Definition dispatch (tx : Tx) : M RetVal :=
  revert_if (negb (payable (call tx)) && negb (msg_value tx =? 0)) NotPayable ;;;
  modify (credit (msg_value tx)) ;;;
  match call tx with
  | CreatePrediction name options =>
      fmap_ret RUint (createPrediction (msg_sender tx) (block_timestamp tx) name options)
  | PlaceEncryptedBet predictionId encryptedSelection inputProof =>
      fmap_ret (fun _ => RUnit)
        (placeEncryptedBet (msg_sender tx) (msg_value tx) predictionId
                           encryptedSelection inputProof)
  | ListPredictions => fmap_ret RSummaries listPredictions
  | GetPredictionMetadata predictionId =>
      fmap_ret RSummary (getPredictionMetadata predictionId)
  | GetEncryptedTotals predictionId =>
      fmap_ret (fun r => RTotals (fst r) (snd r)) (getEncryptedTotals predictionId)
  | GetUserBet predictionId user =>
      fmap_ret (fun r => RUserBet (fst (fst r)) (snd (fst r)) (snd r))
               (getUserBet predictionId user)
  | GetPredictionCount => fmap_ret RUint getPredictionCount
  end.

Inductive Outcome :=
| Returned (v : RetVal)
| Reverted (e : Error).

(** A transaction that reverts leaves the state as it found it. *)
Definition execute (tx : Tx) (st : State) : Outcome * State :=
  match dispatch tx st with
  | Ok v st' => (Returned v, st')
  | Revert e => (Reverted e, st)
  end.

Definition step (st : State) (tx : Tx) : State := snd (execute tx st).

(** The state after a sequence of transactions, and what each returned. *)
Definition run (txs : list Tx) (st : State) : State := fold_left step txs st.

Fixpoint receipts (txs : list Tx) (st : State) : list (Tx * Outcome) :=
  match txs with
  | [] => []
  | tx :: r => (tx, fst (execute tx st)) :: receipts r (step st tx)
  end.

End Engine.

(** * Vocabulary of the statements *)

(** [bytes(s).length == 0]. *)
Definition is_empty (s : string) : bool := (String.length s =? 0)%nat.

(** The primitives issued for one encrypted zero owned by [who]. *)
Definition zero_ops (who : address) : list PrimOp :=
  let z := HEncode EUint64 0 in
  [OpEncode EUint64 0; OpGrant z Self; OpGrant z Anyone; OpGrant z (Account who)].

(** What the aggregation loop stores at index [i], and the primitives it
    issues there. *)
Definition new_total (sel amt zero : handle) (i : nat) (t : handle) : handle :=
  HAdd t (HSelect (HEqual sel (HEncode EUint8 (N.of_nat i mod 2 ^ 8))) amt zero).

Fixpoint aggregate_totals (sel amt zero : handle) (i : nat)
    (totals : list handle) : list handle :=
  match totals with
  | [] => []
  | t :: r => new_total sel amt zero i t :: aggregate_totals sel amt zero (S i) r
  end.

Definition option_ops (who : address) (sel amt zero : handle) (i : nat)
    (t : handle) : list PrimOp :=
  let index := HEncode EUint8 (N.of_nat i mod 2 ^ 8) in
  let m := HEqual sel index in
  let addition := HSelect m amt zero in
  let nt := HAdd t addition in
  [OpEncode EUint8 (N.of_nat i mod 2 ^ 8); OpEqual sel index; OpSelect m amt zero;
   OpAdd t addition; OpGrant nt Self; OpGrant nt Anyone; OpGrant nt (Account who)].

Fixpoint aggregate_ops (who : address) (sel amt zero : handle) (i : nat)
    (totals : list handle) : list PrimOp :=
  match totals with
  | [] => []
  | t :: r => option_ops who sel amt zero i t ++ aggregate_ops who sel amt zero (S i) r
  end.

(** The state a successful [createPrediction] leaves. *)
Definition created (who : address) (ts : uint256) (nm : string)
    (opts : list string) (st : State) : State :=
  let pid := _nextPredictionId st in
  let p0 := prediction st pid in
  let z := HEncode EUint64 0 in
  mkState (pid + 1)
    (<[pid := mkPrediction nm (options p0 ++ opts)
                (optionTotals p0 ++ replicate (length opts) z) z who ts true]>
       (_predictions st))
    (_bets st)
    (_predictionIds st ++ [pid])
    (fheLog st ++ zero_ops who ++ concat (replicate (length opts) (zero_ops who)))
    (eventLog st ++ [PredictionCreated pid who nm (N.of_nat (length opts))])
    (balance st).

(** The primitives a successful bet issues, in order. *)
Definition bet_ops (who : address) (value : uint256) (raw v : N) (p : Prediction)
    : list PrimOp :=
  let sel := HIngest EUint8 raw v in
  let amt := HEncode EUint64 (value mod 2 ^ 64) in
  let pool := HAdd (encryptedPool p) amt in
  let zero := HEncode EUint64 0 in
  [OpIngest EUint8 raw; OpGrant sel Self; OpGrant sel (Account who);
   OpEncode EUint64 (value mod 2 ^ 64); OpGrant amt Self; OpGrant amt (Account who);
   OpAdd (encryptedPool p) amt; OpGrant pool Self; OpGrant pool Anyone;
   OpGrant pool (Account who);
   OpEncode EUint64 0; OpGrant zero Self]
  ++ aggregate_ops who sel amt zero 0 (optionTotals p).

(** The state a successful [placeEncryptedBet] leaves, [v] being the
    plaintext the input proof attests. *)
Definition placed (who : address) (value : uint256) (pid : uint256) (raw v : N)
    (st : State) : State :=
  let p := prediction st pid in
  let sel := HIngest EUint8 raw v in
  let amt := HEncode EUint64 (value mod 2 ^ 64) in
  let zero := HEncode EUint64 0 in
  mkState (_nextPredictionId st)
    (<[pid := mkPrediction (name p) (options p)
                (aggregate_totals sel amt zero 0 (optionTotals p))
                (HAdd (encryptedPool p) amt) (creator p) (createdAt p) (exists_ p)]>
       (_predictions st))
    (<[(pid, who) := mkBetInfo amt sel true]> (_bets st))
    (_predictionIds st)
    (fheLog st ++ bet_ops who value raw v p)
    (eventLog st ++ [BetPlaced pid who amt sel value])
    (balance st).

(** The summary [listPredictions] leaves in the slot of [predictionId]. *)
Definition slot_summary (st : State) (predictionId : uint256) : PredictionSummary :=
  let p := prediction st predictionId in
  if exists_ p
  then mkSummary predictionId (name p) (options p) (creator p) (createdAt p)
  else zeroSummary.

(** The entry points declared [view]. *)
Definition is_view (c : Call) : bool :=
  match c with
  | CreatePrediction _ _ | PlaceEncryptedBet _ _ _ => false
  | _ => true
  end.

(** A bet that went through: where, by whom, the stake attached and the
    plaintext of the selection. *)
Record PlacedBet := mkPlaced {
  placedOn : uint256;
  placedBy : address;
  stake : uint256;
  selection : N
}.

Definition sumN (l : list N) : N := fold_right N.add 0 l.

Definition on_prediction (pid : uint256) (b : PlacedBet) : bool :=
  placedOn b =? pid.

Definition on_option (pid : uint256) (i : N) (b : PlacedBet) : bool :=
  (placedOn b =? pid) && (selection b =? i).

(** The stakes attached to the bets on a prediction, and to those among them
    that selected option [i]. *)
Definition staked (pid : uint256) (bets : list PlacedBet) : N :=
  sumN (map stake (List.filter (on_prediction pid) bets)).

Definition staked_on (pid : uint256) (i : N) (bets : list PlacedBet) : N :=
  sumN (map stake (List.filter (on_option pid i) bets)).

(** The creation a receipt records, if it records one: the id returned and
    what the caller supplied. *)
Definition creation (r : Tx * Outcome) : list PredictionSummary :=
  match call (fst r), snd r with
  | CreatePrediction nm opts, Returned (RUint id) =>
      [mkSummary id nm opts (msg_sender (fst r)) (block_timestamp (fst r))]
  | _, _ => []
  end.

Definition creations (log : list (Tx * Outcome)) : list PredictionSummary :=
  flat_map creation log.

(** The kinds of primitives of one turn of the aggregation loop, and of a
    whole bet on a prediction with [n] options. *)
Definition option_kinds (who : address) : list OpKind :=
  [KEncode EUint8; KEqual; KSelect; KAdd;
   KGrant Self; KGrant Anyone; KGrant (Account who)].

Definition bet_kinds (who : address) (n : nat) : list OpKind :=
  [KIngest EUint8; KGrant Self; KGrant (Account who);
   KEncode EUint64; KGrant Self; KGrant (Account who);
   KAdd; KGrant Self; KGrant Anyone; KGrant (Account who);
   KEncode EUint64; KGrant Self]
  ++ concat (replicate n (option_kinds who)).

(** Every bet on [pid] selected one of its [n] options. *)
Definition selections_valid (pid : uint256) (n : nat) (bets : list PlacedBet) : bool :=
  forallb (fun b => negb (placedOn b =? pid) || (selection b <? N.of_nat n)) bets.

Section Histories.

Variable verifyInput : externalEuint8 -> bytes -> option N.

(** The selection an input carries, as an 8-bit value. *)
Definition attested (raw : externalEuint8) (proof : bytes) : N :=
  match verifyInput raw proof with
  | Some v => v mod 2 ^ 8
  | None => 0
  end.

(** The bet a receipt records, if it records one. *)
Definition placed_bet (r : Tx * Outcome) : list PlacedBet :=
  match call (fst r), snd r with
  | PlaceEncryptedBet pid raw proof, Returned _ =>
      [mkPlaced pid (msg_sender (fst r)) (msg_value (fst r)) (attested raw proof)]
  | _, _ => []
  end.

Definition placedBets (log : list (Tx * Outcome)) : list PlacedBet :=
  flat_map placed_bet log.

(** What one transaction can do to the state. *)
Inductive Transition (st : State) (tx : Tx) : Outcome -> State -> Prop :=
| Tr_create nm opts :
    call tx = CreatePrediction nm opts ->
    msg_value tx = 0 ->
    is_empty nm = false ->
    (2 <= length opts <= 4)%nat ->
    existsb is_empty opts = false ->
    _nextPredictionId st <> uint256_max ->
    Transition st tx (Returned (RUint (_nextPredictionId st)))
               (created (msg_sender tx) (block_timestamp tx) nm opts st)
| Tr_bet pid raw proof v :
    call tx = PlaceEncryptedBet pid raw proof ->
    exists_ (prediction st pid) = true ->
    optionTotals (prediction st pid) <> [] ->
    0 < msg_value tx <= uint64_max ->
    betExists (bet st pid (msg_sender tx)) = false ->
    verifyInput raw proof = Some v ->
    Transition st tx (Returned RUnit)
               (placed (msg_sender tx) (msg_value tx) pid raw v
                       (credit (msg_value tx) st))
| Tr_revert e : Transition st tx (Reverted e) st
| Tr_view v : is_view (call tx) = true -> Transition st tx (Returned v) st.

(** What holds of every state reached from the initial one, [log] being the
    transactions run so far with their outcomes. *)
Record Inv (log : list (Tx * Outcome)) (st : State) : Prop := {
  inv_next : _nextPredictionId st = N.of_nat (length (creations log)) + 1;
  inv_ids : _predictionIds st = map summaryId (creations log);
  inv_seq : map summaryId (creations log)
            = map N.of_nat (seq 1 (length (creations log)));
  inv_fresh : forall pid,
      _nextPredictionId st <= pid -> _predictions st !! pid = None;
  inv_pred : forall pid p,
      _predictions st !! pid = Some p ->
      exists_ p = true /\ (2 <= length (options p) <= 4)%nat
      /\ length (optionTotals p) = length (options p);
  inv_created : forall s,
      In s (creations log) -> slot_summary st (summaryId s) = s;
  inv_bets : forall pid u b,
      _bets st !! (pid, u) = Some b ->
      betExists b = true /\ exists_ (prediction st pid) = true
      /\ exists pb, In pb (placedBets log) /\ placedOn pb = pid /\ placedBy pb = u;
  inv_stored : forall pb,
      In pb (placedBets log) ->
      betExists (bet st (placedOn pb) (placedBy pb)) = true
      /\ decrypt (encryptedAmount (bet st (placedOn pb) (placedBy pb))) = stake pb
      /\ decrypt (encryptedSelection (bet st (placedOn pb) (placedBy pb)))
         = selection pb;
  inv_pool : forall pid,
      decrypt (encryptedPool (prediction st pid))
      = staked pid (placedBets log) mod 2 ^ 64;
  inv_totals : forall pid i t,
      optionTotals (prediction st pid) !! i = Some t ->
      decrypt t = staked_on pid (N.of_nat i) (placedBets log) mod 2 ^ 64;
  inv_balance : balance st = sumN (map stake (placedBets log))
}.

End Histories.

(** * Sample transactions *)

(** A verifier for the examples: a proof is valid when it is not empty, and
    then attests its first word. *)
Definition sampleVerifier (raw : externalEuint8) (proof : bytes) : option N :=
  match proof with
  | [] => None
  | v :: _ => Some v
  end.

Definition alice : address := 10.

Definition bob : address := 11.

Definition carol : address := 12.

Definition weather : Tx :=
  mkTx alice 0 100 (CreatePrediction "Weather" ["Sunny"; "Rainy"]).

Definition aliceOnRainy : Tx := mkTx alice 5 101 (PlaceEncryptedBet 1 77 [1]).

Definition bobOnSunny : Tx := mkTx bob 7 102 (PlaceEncryptedBet 1 78 [0]).

Definition aliceOnNothing : Tx := mkTx alice 5 101 (PlaceEncryptedBet 1 77 [7]).

Definition half : uint256 := 2 ^ 63.

Definition aliceHalf : Tx := mkTx alice half 101 (PlaceEncryptedBet 1 77 [0]).

Definition bobHalf : Tx := mkTx bob half 102 (PlaceEncryptedBet 1 78 [0]).

Abbreviation played := (run sampleVerifier [weather; aliceOnRainy; bobOnSunny] initial).

Definition matchDay : list Tx :=
  [mkTx carol 0 100 (CreatePrediction "Match" ["A"; "B"; "C"]);
   mkTx alice 2 101 (PlaceEncryptedBet 1 77 [0]);
   mkTx bob 3 102 (PlaceEncryptedBet 1 78 [2])].

(** * Events and grants *)

(** A handle that the contract may compute on and that anyone may decrypt:
    both grants were issued. *)
Definition granted_public (log : list PrimOp) (h : handle) : Prop :=
  In (OpGrant h Self) log /\ In (OpGrant h Anyone) log.

(** A handle that the contract may compute on and that [who] may decrypt. *)
Definition granted_to (log : list PrimOp) (who : address) (h : handle) : Prop :=
  In (OpGrant h Self) log /\ In (OpGrant h (Account who)) log.

Section Notifications.

Variable verifyInput : externalEuint8 -> bytes -> option N.

(** The event a receipt stands for: one [PredictionCreated] per creation,
    one [BetPlaced] per bet, nothing for a reverted call or a read. *)
Definition expected_event (r : Tx * Outcome) : list Event :=
  match call (fst r), snd r with
  | CreatePrediction nm opts, Returned (RUint id) =>
      [PredictionCreated id (msg_sender (fst r)) nm (N.of_nat (length opts))]
  | PlaceEncryptedBet pid raw proof, Returned _ =>
      match verifyInput raw proof with
      | Some v =>
          [BetPlaced pid (msg_sender (fst r))
                     (HEncode EUint64 (msg_value (fst r) mod 2 ^ 64))
                     (HIngest EUint8 raw v) (msg_value (fst r))]
      | None => []
      end
  | _, _ => []
  end.

Definition expected_events (log : list (Tx * Outcome)) : list Event :=
  flat_map expected_event log.

(** What holds, beyond [Inv], of the events and grants of every state reached
    from the initial one. *)
Record Inv2 (log : list (Tx * Outcome)) (st : State) : Prop := {
  inv2_positive : forall pid p, _predictions st !! pid = Some p -> 1 <= pid;
  inv2_events : eventLog st = expected_events log;
  inv2_public : forall h,
      In (OpGrant h Anyone) (fheLog st) ->
      h = HEncode EUint64 0 \/ exists a b, h = HAdd a b;
  inv2_totals : forall pid p,
      _predictions st !! pid = Some p ->
      granted_public (fheLog st) (encryptedPool p)
      /\ forall t, In t (optionTotals p) -> granted_public (fheLog st) t;
  inv2_bets : forall pid u b,
      _bets st !! (pid, u) = Some b ->
      (exists raw v value,
          b = mkBetInfo (HEncode EUint64 value) (HIngest EUint8 raw v) true
          /\ value <> 0)
      /\ granted_to (fheLog st) u (encryptedAmount b)
      /\ granted_to (fheLog st) u (encryptedSelection b);
  inv2_selections : forall ty raw v w,
      In (OpGrant (HIngest ty raw v) (Account w)) (fheLog st) ->
      exists pid, betExists (bet st pid w) = true
                  /\ encryptedSelection (bet st pid w) = HIngest ty raw v;
  inv2_placed : forall pid u a s c,
      In (BetPlaced pid u a s c) (eventLog st) ->
      bet st pid u = mkBetInfo a s true /\ decrypt a = c
}.

End Notifications.

(** * The creation form and the creation task

    [ui/src/components/CreatePredictionForm.tsx] keeps a title and a list of
    option rows and, on submit, decides whether to call [createPrediction];
    the hardhat task [task:create-prediction] builds the same call from a
    comma-separated argument.  JavaScript strings and the built-ins the two
    use ([''], [String.prototype.trim], [.length], and the UTF-8 encoding
    ethers applies to a [string] argument) are parameters of the model. *)

Definition MIN_OPTIONS : nat := 2.
Definition MAX_OPTIONS : nat := 4.

(** [Array.prototype.filter] with the index its callback receives. *)
Fixpoint filter_from {A} (keep : A -> nat -> bool) (i : nat) (l : list A) : list A :=
  match l with
  | [] => []
  | x :: rest =>
      if keep x i then x :: filter_from keep (S i) rest
      else filter_from keep (S i) rest
  end.

Definition js_filter {A} (keep : A -> nat -> bool) (l : list A) : list A :=
  filter_from keep 0 l.

Section Form.
Variable jsstring : Type.
Variable emptyString : jsstring.
Variable trim : jsstring -> jsstring.
Variable jslength : jsstring -> nat.
Variable utf8 : jsstring -> string.

Record FormState := mkForm {
  form_title : jsstring;
  form_options : list jsstring
}.

(** [useState('')] and [useState(Array(MIN_OPTIONS).fill(''))]. *)
Definition initialForm : FormState :=
  mkForm emptyString (replicate MIN_OPTIONS emptyString).

(** The handlers.  [addOption] and [removeOption] test the [options] of
    the render they were created in and update the [existing] state. *)
Definition handleOptionChange (index : nat) (value : jsstring)
    (existing : list jsstring) : list jsstring :=
  imap (fun i item => if (i =? index)%nat then value else item) existing.

Definition addOption (options existing : list jsstring) : list jsstring :=
  if (MAX_OPTIONS <=? length options)%nat then existing
  else existing ++ [emptyString].

Definition removeOption (index : nat) (options existing : list jsstring)
    : list jsstring :=
  if (length options <=? MIN_OPTIONS)%nat then existing
  else js_filter (fun _ i => negb (i =? index)%nat) existing.

Definition resetForm (s : FormState) : FormState :=
  mkForm emptyString (replicate MIN_OPTIONS emptyString).

(** What a submit does: show an error message, or send
    [createPrediction(title, options)]. *)
Inductive Submission :=
| ShowError (message : string)
| SendCreate (title : jsstring) (options : list jsstring).

Definition trimmedOptions (options : list jsstring) : list jsstring :=
  js_filter (fun option _ => (0 <? jslength option)%nat) (map trim options).

Definition handleSubmit (address signerPromise contractAddressOk signer : bool)
    (s : FormState) : Submission :=
  if negb address || negb signerPromise then
    ShowError "Connect your wallet before creating predictions."
  else
    let trimmed := trimmedOptions (form_options s) in
    if (length trimmed <? MIN_OPTIONS)%nat || (MAX_OPTIONS <? length trimmed)%nat then
      ShowError "Enter between 2 and 4 option labels."
    else if (jslength (trim (form_title s)) =? 0)%nat then
      ShowError "Prediction title is required."
    else if negb contractAddressOk then
      ShowError "Contract address is not set. Deploy the contract before using the app."
    else if negb signer then
      ShowError "Unable to locate wallet signer."
    else SendCreate (trim (form_title s)) trimmed.

(** What the user does to the form; every event is handled by the handlers
    of the render of the current state.  [Created] is the end of a
    successful submission, which resets the form. *)
Inductive FormEvent :=
| TitleInput (value : jsstring)
| OptionInput (index : nat) (value : jsstring)
| AddClicked
| RemoveClicked (index : nat)
| Created.

Definition form_step (s : FormState) (ev : FormEvent) : FormState :=
  match ev with
  | TitleInput value => mkForm value (form_options s)
  | OptionInput index value =>
      mkForm (form_title s) (handleOptionChange index value (form_options s))
  | AddClicked =>
      mkForm (form_title s) (addOption (form_options s) (form_options s))
  | RemoveClicked index =>
      mkForm (form_title s) (removeOption index (form_options s) (form_options s))
  | Created => resetForm s
  end.

Definition form_run (events : list FormEvent) (s : FormState) : FormState :=
  fold_left form_step events s.

(** [task:create-prediction]: the options are the non-blank trimmed parts
    of the argument split at commas, the name is passed as given. *)
Definition task_options (parts : list jsstring) : list jsstring :=
  js_filter (fun option _ => (0 <? jslength option)%nat) (map trim parts).

(** The call as the contract receives it. *)
Definition create_call (who : address) (ts : uint256)
    (title : jsstring) (options : list jsstring) : M uint256 :=
  createPrediction who ts (utf8 title) (map utf8 options).
End Form.

Arguments ShowError {jsstring} message.
Arguments SendCreate {jsstring} title options.
Arguments TitleInput {jsstring} value.
Arguments OptionInput {jsstring} index value.
Arguments AddClicked {jsstring}.
Arguments RemoveClicked {jsstring} index.
Arguments Created {jsstring}.
Arguments mkForm {jsstring} _ _.
Arguments form_title {jsstring} _.
Arguments form_options {jsstring} _.

(** A stand-in for [trim] in the examples: leading spaces are dropped. *)
Fixpoint dropSpaces (s : string) : string :=
  match s with
  | String c rest => if Ascii.eqb c (Ascii.ascii_of_nat 32) then dropSpaces rest else s
  | EmptyString => s
  end.

(** * Further sample transactions *)

Definition football : Tx :=
  mkTx bob 0 200 (CreatePrediction "Match" ["A"; "B"; "C"]).

Definition carolOnSunny : Tx := mkTx carol 9 200 (PlaceEncryptedBet 1 80 [0]).

Definition aliceAgain : Tx := mkTx alice 3 201 (PlaceEncryptedBet 1 77 [0]).

(** The user types a title, fills the first row, adds a third row and fills
    the second. *)
Definition sampleInputs : list (FormEvent string) :=
  [TitleInput " Who wins?"; OptionInput 0 "Yes"; AddClicked; OptionInput 1 " No"].

(** * Closed forms of the entry points *)

Lemma state_eq a b c d e f g a' b' c' d' e' f' g' :
  a = a' -> b = b' -> c = c' -> d = d' -> e = e' -> f = f' -> g = g' ->
  mkState a b c d e f g = mkState a' b' c' d' e' f' g'.
Proof. congruence. Qed.

Ltac state_norm :=
  cbv [prediction bet set_prediction set_bet log_prim log_event push_predictionId
       set_nextPredictionId credit _nextPredictionId _predictions _bets
       _predictionIds fheLog eventLog balance];
  repeat (rewrite ?lookup_insert_eq, ?insert_insert_eq; cbv beta iota).

Ltac state_simpl :=
  cbn [_nextPredictionId _predictions _bets _predictionIds fheLog eventLog balance].

Lemma bind_ok {A B} (m : M A) (k : A -> M B) st a st' :
  m st = Ok a st' -> bind m k st = k a st'.
Proof. unfold bind. by intros ->. Qed.

Lemma bind_revert_if {B} c e (k : unit -> M B) st :
  bind (revert_if c e) k st = if c then Revert e else k tt st.
Proof. by destruct c. Qed.

Lemma bind_modify {B} f (k : unit -> M B) st : bind (modify f) k st = k tt (f st).
Proof. reflexivity. Qed.

Lemma bind_get {B} (k : State -> M B) st : bind get k st = k st st.
Proof. reflexivity. Qed.

Lemma bind_read_prediction {B} pid (k : Prediction -> M B) st :
  bind (read_prediction pid) k st = k (prediction st pid) st.
Proof. reflexivity. Qed.

Lemma bind_read_bet {B} pid u (k : BetInfo -> M B) st :
  bind (read_bet pid u) k st = k (bet st pid u) st.
Proof. reflexivity. Qed.

Lemma bind_update_prediction {B} pid f (k : unit -> M B) st :
  bind (update_prediction pid f) k st
  = k tt (set_prediction pid (f (prediction st pid)) st).
Proof. reflexivity. Qed.

Lemma bind_update_bet {B} pid u f (k : unit -> M B) st :
  bind (update_bet pid u f) k st = k tt (set_bet pid u (f (bet st pid u)) st).
Proof. reflexivity. Qed.

Lemma bind_emit {B} ev (k : unit -> M B) st :
  bind (emit ev) k st = k tt (log_event ev st).
Proof. reflexivity. Qed.

Lemma bind_asEuint64 {B} v (k : handle -> M B) st :
  bind (FHE_asEuint64 v) k st = k (HEncode EUint64 v) (log_prim (OpEncode EUint64 v) st).
Proof. reflexivity. Qed.

Lemma bind_allowThis {B} h (k : handle -> M B) st :
  bind (FHE_allowThis h) k st = k h (log_prim (OpGrant h Self) st).
Proof. reflexivity. Qed.

Lemma bind_makePubliclyDecryptable {B} h (k : handle -> M B) st :
  bind (FHE_makePubliclyDecryptable h) k st = k h (log_prim (OpGrant h Anyone) st).
Proof. reflexivity. Qed.

Lemma bind_allow {B} h who (k : handle -> M B) st :
  bind (FHE_allow h who) k st = k h (log_prim (OpGrant h (Account who)) st).
Proof. reflexivity. Qed.

Lemma bind_add {B} a b (k : handle -> M B) st :
  bind (FHE_add a b) k st = k (HAdd a b) (log_prim (OpAdd a b) st).
Proof. reflexivity. Qed.

Lemma prediction_set_prediction pid p st : prediction (set_prediction pid p st) pid = p.
Proof. cbv [prediction set_prediction _predictions]. by rewrite lookup_insert_eq. Qed.

Lemma prediction_log_prim op st pid :
  prediction (log_prim op st) pid = prediction st pid.
Proof. reflexivity. Qed.

Lemma prediction_log_event ev st pid :
  prediction (log_event ev st) pid = prediction st pid.
Proof. reflexivity. Qed.

Lemma prediction_set_nextPredictionId n st pid :
  prediction (set_nextPredictionId n st) pid = prediction st pid.
Proof. reflexivity. Qed.

Lemma prediction_set_bet pid' u b st pid :
  prediction (set_bet pid' u b st) pid = prediction st pid.
Proof. reflexivity. Qed.

Lemma bet_set_bet pid u b st : bet (set_bet pid u b st) pid u = b.
Proof. cbv [bet set_bet _bets]. by rewrite lookup_insert_eq. Qed.

Lemma bet_log_prim op st pid u : bet (log_prim op st) pid u = bet st pid u.
Proof. reflexivity. Qed.

Lemma bet_set_prediction pid' p st pid u :
  bet (set_prediction pid' p st) pid u = bet st pid u.
Proof. reflexivity. Qed.

Lemma encryptedPool_set h p : encryptedPool (set_encryptedPool h p) = h.
Proof. reflexivity. Qed.

Lemma set_encryptedPool_twice h h' p :
  set_encryptedPool h (set_encryptedPool h' p) = set_encryptedPool h p.
Proof. reflexivity. Qed.

Lemma optionTotals_set_encryptedPool h p :
  optionTotals (set_encryptedPool h p) = optionTotals p.
Proof. reflexivity. Qed.

(** One step of a computation, keeping what is read back from the state in
    reduced form. *)
Ltac step_monad :=
  repeat first
    [ rewrite prediction_set_prediction | rewrite prediction_log_prim
    | rewrite prediction_log_event | rewrite prediction_set_nextPredictionId
    | rewrite prediction_set_bet | rewrite bet_set_bet | rewrite bet_log_prim
    | rewrite bet_set_prediction | rewrite encryptedPool_set
    | rewrite set_encryptedPool_twice | rewrite optionTotals_set_encryptedPool
    | rewrite bind_modify | rewrite bind_get | rewrite bind_read_prediction
    | rewrite bind_read_bet | rewrite bind_update_prediction
    | rewrite bind_update_bet | rewrite bind_emit | rewrite bind_asEuint64
    | rewrite bind_allowThis | rewrite bind_makePubliclyDecryptable
    | rewrite bind_allow | rewrite bind_add ].

Lemma prediction_lookup st pid p :
  _predictions st !! pid = Some p -> prediction st pid = p.
Proof. unfold prediction. by intros ->. Qed.

Lemma aggregate_option_run who pid sel amt zero i st p t :
  _predictions st !! pid = Some p ->
  optionTotals p !! i = Some t ->
  aggregate_option who pid sel amt zero i st
  = Ok tt (mkState (_nextPredictionId st)
            (<[pid := set_optionTotals
                        (<[i := new_total sel amt zero i t]> (optionTotals p)) p]>
               (_predictions st))
            (_bets st) (_predictionIds st)
            (fheLog st ++ option_ops who sel amt zero i t)
            (eventLog st) (balance st)).
Proof.
  intros Hp Ht.
  unfold aggregate_option, FHE_asEuint8, FHE_eq, FHE_select, FHE_add,
    FHE_allowThis, FHE_makePubliclyDecryptable, FHE_allow, prim,
    read_prediction, update_prediction, array_get.
  unfold bind, modify, ret, prediction, set_prediction, log_prim.
  repeat (state_simpl; first [rewrite Hp | rewrite Ht]).
  state_simpl.
  f_equal. apply state_eq; try done.
  by rewrite <- !app_assoc.
Qed.

Lemma check_options_run opts st :
  for_each opts (fun option => revert_if (String.length option =? 0)%nat EmptyOption) st
  = if existsb is_empty opts then Revert EmptyOption else Ok tt st.
Proof.
  induction opts as [|o r IH]; [done|].
  cbn [for_each existsb]. rewrite bind_revert_if. unfold is_empty at 1.
  by destruct (String.length o =? 0)%nat.
Qed.

Lemma push_loop who pid opts : forall st p,
  _predictions st !! pid = Some p ->
  for_each opts (fun option =>
    update_prediction pid (push_option option) ;;;
    let* optionTotal := FHE_asEuint64 0 in
    let* optionTotal := FHE_allowThis optionTotal in
    let* optionTotal := FHE_makePubliclyDecryptable optionTotal in
    let* optionTotal := FHE_allow optionTotal who in
    update_prediction pid (push_optionTotal optionTotal)) st
  = Ok tt (mkState (_nextPredictionId st)
            (<[pid := set_optionTotals
                        (optionTotals p ++ replicate (length opts) (HEncode EUint64 0))
                        (set_options (options p ++ opts) p)]> (_predictions st))
            (_bets st) (_predictionIds st)
            (fheLog st ++ concat (replicate (length opts) (zero_ops who)))
            (eventLog st) (balance st)).
Proof.
  induction opts as [|o r IH]; intros st p Hp.
  - cbn [for_each length replicate concat]. unfold ret. rewrite !app_nil_r.
    replace (set_optionTotals _ _) with p by (by destruct p).
    rewrite insert_id by done. by destruct st.
  - cbn [for_each length replicate concat].
    erewrite bind_ok; cycle 1.
    { step_monad. unfold update_prediction, modify.
      rewrite !prediction_log_prim, prediction_set_prediction.
      rewrite (prediction_lookup _ _ _ Hp). reflexivity. }
    erewrite (IH _ (push_optionTotal (HEncode EUint64 0) (push_option o p)));
      [|cbv [set_prediction _predictions]; apply lookup_insert_eq].
    apply (f_equal (Ok _)).
    destruct st as [next preds bets ids flog elog bal].
    destruct p as [pn po pt pp pc pa pe].
    state_norm.
    cbv [push_optionTotal push_option set_optionTotals set_options name options
         optionTotals encryptedPool creator createdAt exists_ zero_ops].
    apply state_eq; try reflexivity.
    + by rewrite <- !app_assoc.
    + by rewrite <- !app_assoc.
Qed.

Lemma set_optionTotals_id p : set_optionTotals (optionTotals p) p = p.
Proof. by destruct p. Qed.

Lemma aggregate_loop who pid sel amt zero todo : forall pre st p,
  _predictions st !! pid = Some p ->
  optionTotals p = pre ++ todo ->
  for_each (seq (length pre) (length todo)) (aggregate_option who pid sel amt zero) st
  = Ok tt (mkState (_nextPredictionId st)
            (<[pid := set_optionTotals (pre ++ aggregate_totals sel amt zero (length pre) todo) p]>
               (_predictions st))
            (_bets st) (_predictionIds st)
            (fheLog st ++ aggregate_ops who sel amt zero (length pre) todo)
            (eventLog st) (balance st)).
Proof.
  induction todo as [|t r IH]; intros pre st p Hp Ht.
  - cbn [length seq for_each aggregate_totals aggregate_ops]. unfold ret.
    rewrite app_nil_r in Ht.
    rewrite !app_nil_r, <- Ht, set_optionTotals_id, insert_id by done.
    by destruct st.
  - cbn [length seq for_each aggregate_totals aggregate_ops].
    unfold bind.
    rewrite (aggregate_option_run _ _ _ _ _ _ _ p t Hp)
      by (rewrite Ht; by apply list_lookup_middle).
    set (nt := new_total sel amt zero (length pre) t).
    match goal with |- for_each _ _ ?s = _ => set (st1 := s) end.
    set (p1 := set_optionTotals (<[length pre := nt]> (optionTotals p)) p).
    assert (Ht1 : optionTotals p1 = (pre ++ [nt]) ++ r).
    { subst p1. cbn. rewrite Ht, insert_app_r_alt, Nat.sub_diag by lia. cbn.
      by rewrite <- app_assoc. }
    assert (Hp1 : _predictions st1 !! pid = Some p1).
    { subst st1. cbn. by rewrite lookup_insert_eq. }
    replace (S (length pre)) with (length (pre ++ [nt])) by (rewrite length_app; cbn; lia).
    rewrite (IH _ _ _ Hp1 Ht1).
    f_equal. subst st1. cbn.
    apply state_eq; try done.
    + rewrite insert_insert_eq. f_equal. subst p1.
      unfold set_optionTotals. cbn. by rewrite <- app_assoc.
    + by rewrite <- !app_assoc.
Qed.

Lemma createPrediction_run who ts nm opts st :
  createPrediction who ts nm opts st
  = if is_empty nm then Revert EmptyName
    else if (length opts <? 2)%nat || (4 <? length opts)%nat then Revert InvalidOptionsCount
    else if existsb is_empty opts then Revert EmptyOption
    else if _nextPredictionId st =? uint256_max then Revert (Panic 17)
    else Ok (_nextPredictionId st) (created who ts nm opts st).
Proof.
  unfold createPrediction, is_empty at 1.
  unfold created.
  rewrite bind_revert_if. destruct (String.length nm =? 0)%nat; [done|].
  rewrite bind_revert_if. destruct (_ || _); [done|].
  unfold bind at 1. rewrite check_options_run.
  destruct (existsb is_empty opts); [done|].
  rewrite bind_get, bind_revert_if.
  destruct (_nextPredictionId st =? uint256_max); [done|].
  step_monad.
  erewrite bind_ok; cycle 1.
  { apply push_loop. cbv [set_prediction _predictions]. apply lookup_insert_eq. }
  step_monad. unfold ret. apply (f_equal (Ok _)).
  destruct st as [next preds bets ids flog elog bal].
  state_norm.
  cbv [set_optionTotals set_options set_encryptedPool set_exists set_createdAt
       set_creator set_name name options optionTotals encryptedPool creator
       createdAt exists_].
  apply state_eq; try reflexivity.
  unfold zero_ops. by rewrite <- !app_assoc.
Qed.

Section Closed.

Variable verifyInput : externalEuint8 -> bytes -> option N.

Lemma placeEncryptedBet_run who value pid raw proof st :
  placeEncryptedBet verifyInput who value pid raw proof st
  = let p := prediction st pid in
    if negb (exists_ p) then Revert InvalidPrediction
    else if (length (optionTotals p) =? 0)%nat then Revert InvalidOptionsCount
    else if (value =? 0) || (uint64_max <? value) then Revert InvalidBetAmount
    else if betExists (bet st pid who) then Revert BetAlreadyPlaced
    else match verifyInput raw proof with
         | Some v => Ok tt (placed who value pid raw v st)
         | None => Revert ProofInvalid
         end.
Proof.
  unfold placeEncryptedBet. cbv zeta.
  rewrite bind_read_prediction, bind_revert_if.
  destruct (exists_ (prediction st pid)) eqn:Hex; [|reflexivity]. cbn [negb].
  rewrite bind_revert_if. destruct (_ =? _)%nat; [reflexivity|].
  rewrite bind_revert_if. destruct (_ || _); [reflexivity|].
  rewrite bind_read_bet, bind_revert_if.
  destruct (betExists (bet st pid who)); [reflexivity|].
  unfold FHE_fromExternal.
  destruct (verifyInput raw proof) as [v|]; [|reflexivity].
  unfold bind at 1. unfold bind at 1. unfold prim, modify, ret.
  step_monad.
  assert (Hp : _predictions st !! pid = Some (prediction st pid)).
  { unfold prediction in *.
    destruct (_predictions st !! pid); [reflexivity|discriminate]. }
  erewrite bind_ok; cycle 1.
  { eapply (aggregate_loop _ _ _ _ _ (optionTotals (prediction st pid)) []).
    - cbv [log_prim set_prediction _predictions]. apply lookup_insert_eq.
    - reflexivity. }
  step_monad. unfold emit, modify. apply (f_equal (Ok _)).
  unfold placed, bet_ops. revert Hp. generalize (prediction st pid). intros p Hp.
  destruct st as [next preds bets ids flog elog bal].
  destruct p as [pn po pt pp pc pa pe].
  state_norm. cbv [_predictions] in Hp.
  cbv [set_optionTotals set_encryptedPool name options optionTotals encryptedPool
       creator createdAt exists_ set_betExists set_encryptedSelection
       set_encryptedAmount encryptedAmount encryptedSelection betExists].
  apply state_eq; try reflexivity.
  rewrite <- !app_assoc. reflexivity.
Qed.

End Closed.

(** ** Loops that fill a freshly allocated array *)

Lemma map_nth_seq {A} (d : A) (l : list A) :
  map (fun i => nth i l d) (seq 0 (length l)) = l.
Proof.
  induction l as [|x l IH]; [done|].
  cbn [length seq map nth]. f_equal.
  rewrite <- seq_shift, map_map. exact IH.
Qed.

Lemma fill_loop {A} (d : A) (step : list A -> nat -> list A) (f : nat -> A) :
  (forall acc i, step acc i = <[i := f i]> acc \/ (step acc i = acc /\ f i = d)) ->
  forall m pre,
    fold_left step (seq (length pre) m) (pre ++ replicate m d)
    = pre ++ map f (seq (length pre) m).
Proof.
  intros Hstep. induction m as [|m IH]; intros pre; [done|].
  cbn [seq fold_left replicate map].
  assert (Hk : step (pre ++ d :: replicate m d) (length pre)
               = (pre ++ [f (length pre)]) ++ replicate m d).
  { rewrite <- app_assoc. cbn [app].
    destruct (Hstep (pre ++ d :: replicate m d) (length pre)) as [-> | [-> <-]]; [|done].
    by rewrite insert_app_r_alt, Nat.sub_diag by lia. }
  rewrite Hk.
  replace (S (length pre)) with (length (pre ++ [f (length pre)]))
    by (rewrite length_app; cbn; lia).
  rewrite IH, <- app_assoc. done.
Qed.

Lemma _copyOptions_id source : _copyOptions source = source.
Proof.
  unfold _copyOptions.
  pose proof (fill_loop "" _ (fun i => nth i source "")
                (fun acc i => or_introl eq_refl) (length source) []) as H.
  cbn [length app] in H. rewrite H.
  apply map_nth_seq.
Qed.

Lemma _copyEncryptedTotals_id source : _copyEncryptedTotals source = source.
Proof.
  unfold _copyEncryptedTotals.
  pose proof (fill_loop HNull _ (fun i => nth i source HNull)
                (fun acc i => or_introl eq_refl) (length source) []) as H.
  cbn [length app] in H. rewrite H.
  apply map_nth_seq.
Qed.

Lemma listPredictions_run st :
  listPredictions st = Ok (map (slot_summary st) (_predictionIds st)) st.
Proof.
  unfold listPredictions. rewrite bind_get. unfold ret. apply (f_equal (fun l => Ok l st)).
  assert (Hstep : forall acc i,
    listPredictions_step st acc i
      = <[i := slot_summary st (nth i (_predictionIds st) 0)]> acc
    \/ (listPredictions_step st acc i = acc
        /\ slot_summary st (nth i (_predictionIds st) 0) = zeroSummary)).
  { intros acc i. unfold listPredictions_step, slot_summary, summary_of.
    rewrite _copyOptions_id.
    destruct (exists_ _); [by left | by right]. }
  pose proof (fill_loop zeroSummary _ _ Hstep (length (_predictionIds st)) []) as H.
  cbn [length app] in H. rewrite H.
  rewrite <- (map_map (fun i => nth i (_predictionIds st) 0)).
  by rewrite map_nth_seq.
Qed.

Lemma getUserBet_run pid user st :
  getUserBet pid user st
  = if exists_ (prediction st pid)
    then Ok (encryptedAmount (bet st pid user), encryptedSelection (bet st pid user),
             betExists (bet st pid user)) st
    else Revert InvalidPrediction.
Proof.
  unfold getUserBet. rewrite bind_read_prediction, bind_revert_if.
  by destruct (exists_ _).
Qed.

Lemma getPredictionCount_run st :
  getPredictionCount st = Ok (N.of_nat (length (_predictionIds st))) st.
Proof. reflexivity. Qed.

Lemma getPredictionMetadata_run pid st :
  getPredictionMetadata pid st
  = if exists_ (prediction st pid)
    then Ok (slot_summary st pid) st
    else Revert InvalidPrediction.
Proof.
  unfold getPredictionMetadata, slot_summary, summary_of.
  rewrite bind_read_prediction, bind_revert_if, _copyOptions_id.
  by destruct (exists_ _).
Qed.

Lemma getEncryptedTotals_run pid st :
  getEncryptedTotals pid st
  = if exists_ (prediction st pid)
    then Ok (optionTotals (prediction st pid), encryptedPool (prediction st pid)) st
    else Revert InvalidPrediction.
Proof.
  unfold getEncryptedTotals.
  rewrite bind_read_prediction, bind_revert_if, _copyEncryptedTotals_id.
  by destruct (exists_ _).
Qed.

(** * Transactions and histories *)

Lemma credit_0 st : credit 0 st = st.
Proof. destruct st. unfold credit. cbn. by rewrite N.add_0_r. Qed.

Section History.

Variable verifyInput : externalEuint8 -> bytes -> option N.

Lemma dispatch_run tx st :
  dispatch verifyInput tx st
  = if negb (payable (call tx)) && negb (msg_value tx =? 0) then Revert NotPayable
    else match call tx with
         | CreatePrediction name options =>
             fmap_ret RUint
               (createPrediction (msg_sender tx) (block_timestamp tx) name options)
               (credit (msg_value tx) st)
         | PlaceEncryptedBet predictionId encryptedSelection inputProof =>
             fmap_ret (fun _ => RUnit)
               (placeEncryptedBet verifyInput (msg_sender tx) (msg_value tx)
                  predictionId encryptedSelection inputProof)
               (credit (msg_value tx) st)
         | ListPredictions => fmap_ret RSummaries listPredictions (credit (msg_value tx) st)
         | GetPredictionMetadata predictionId =>
             fmap_ret RSummary (getPredictionMetadata predictionId)
                      (credit (msg_value tx) st)
         | GetEncryptedTotals predictionId =>
             fmap_ret (fun r => RTotals (fst r) (snd r))
                      (getEncryptedTotals predictionId) (credit (msg_value tx) st)
         | GetUserBet predictionId user =>
             fmap_ret (fun r => RUserBet (fst (fst r)) (snd (fst r)) (snd r))
                      (getUserBet predictionId user) (credit (msg_value tx) st)
         | GetPredictionCount =>
             fmap_ret RUint getPredictionCount (credit (msg_value tx) st)
         end.
Proof.
  unfold dispatch. rewrite bind_revert_if.
  destruct (_ && _); [done|]. rewrite bind_modify. by destruct (call tx).
Qed.

Lemma execute_transition tx st :
  Transition verifyInput st tx (fst (execute verifyInput tx st)) (snd (execute verifyInput tx st)).
Proof.
  unfold execute. rewrite dispatch_run.
  destruct (call tx) as [nm opts|pid raw proof| |pid|pid|pid user|] eqn:Hcall;
    cbn [payable negb andb].
  - destruct (msg_value tx =? 0) eqn:Hv; cbn [negb]; [|apply Tr_revert].
    apply N.eqb_eq in Hv. rewrite Hv, credit_0.
    unfold fmap_ret, bind. rewrite createPrediction_run.
    destruct (is_empty nm) eqn:Hn; [apply Tr_revert|].
    destruct (_ || _) eqn:Hc; [apply Tr_revert|].
    destruct (existsb is_empty opts) eqn:He; [apply Tr_revert|].
    destruct (_ =? uint256_max) eqn:Hm; [apply Tr_revert|].
    cbn [fst snd ret]. apply orb_false_iff in Hc as [H2 H4].
    apply Nat.ltb_ge in H2, H4. apply N.eqb_neq in Hm.
    by eapply Tr_create.
  - unfold fmap_ret, bind. rewrite placeEncryptedBet_run. cbv zeta.
    change (prediction (credit (msg_value tx) st) pid) with (prediction st pid).
    change (bet (credit (msg_value tx) st) pid (msg_sender tx))
      with (bet st pid (msg_sender tx)).
    destruct (exists_ (prediction st pid)) eqn:Hex; cbn [negb]; [|apply Tr_revert].
    destruct (_ =? _)%nat eqn:Hl; [apply Tr_revert|].
    destruct (_ || _) eqn:Hv; [apply Tr_revert|].
    destruct (betExists _) eqn:Hb; [apply Tr_revert|].
    destruct (verifyInput raw proof) as [v|] eqn:Hver; [|apply Tr_revert].
    cbn [fst snd ret]. apply orb_false_iff in Hv as [H0 Hmax].
    apply N.eqb_neq in H0. apply N.ltb_ge in Hmax. apply Nat.eqb_neq in Hl.
    eapply Tr_bet; try done.
    + intros E. by rewrite E in Hl.
    + lia.
  - destruct (msg_value tx =? 0) eqn:Hv; cbn [negb]; [|apply Tr_revert].
    apply N.eqb_eq in Hv. rewrite Hv, credit_0.
    unfold fmap_ret, bind. rewrite listPredictions_run. unfold ret. cbn [fst snd].
    apply Tr_view. by rewrite Hcall.
  - destruct (msg_value tx =? 0) eqn:Hv; cbn [negb]; [|apply Tr_revert].
    apply N.eqb_eq in Hv. rewrite Hv, credit_0.
    unfold fmap_ret, bind. rewrite getPredictionMetadata_run.
    destruct (exists_ _); unfold ret; cbn [fst snd]; [|apply Tr_revert].
    apply Tr_view. by rewrite Hcall.
  - destruct (msg_value tx =? 0) eqn:Hv; cbn [negb]; [|apply Tr_revert].
    apply N.eqb_eq in Hv. rewrite Hv, credit_0.
    unfold fmap_ret, bind. rewrite getEncryptedTotals_run.
    destruct (exists_ _); unfold ret; cbn [fst snd]; [|apply Tr_revert].
    apply Tr_view. by rewrite Hcall.
  - destruct (msg_value tx =? 0) eqn:Hv; cbn [negb]; [|apply Tr_revert].
    apply N.eqb_eq in Hv. rewrite Hv, credit_0.
    unfold fmap_ret, bind. rewrite getUserBet_run.
    destruct (exists_ _); unfold ret; cbn [fst snd]; [|apply Tr_revert].
    apply Tr_view. by rewrite Hcall.
  - destruct (msg_value tx =? 0) eqn:Hv; cbn [negb]; [|apply Tr_revert].
    apply N.eqb_eq in Hv. rewrite Hv, credit_0.
    unfold fmap_ret, bind. rewrite getPredictionCount_run. unfold ret. cbn [fst snd].
    apply Tr_view. by rewrite Hcall.
Qed.

End History.

(** ** Reading a state after a creation or a bet *)

Lemma prediction_created_new who ts nm opts st :
  prediction (created who ts nm opts st) (_nextPredictionId st)
  = let p0 := prediction st (_nextPredictionId st) in
    mkPrediction nm (options p0 ++ opts)
      (optionTotals p0 ++ replicate (length opts) (HEncode EUint64 0))
      (HEncode EUint64 0) who ts true.
Proof. unfold prediction at 1, created. state_simpl. by rewrite lookup_insert_eq. Qed.

Lemma prediction_created_old who ts nm opts st pid :
  pid <> _nextPredictionId st ->
  prediction (created who ts nm opts st) pid = prediction st pid.
Proof.
  intros Hne. unfold prediction, created. state_simpl.
  by rewrite lookup_insert_ne.
Qed.

Lemma prediction_placed_same who value pid raw v st :
  prediction (placed who value pid raw v st) pid
  = let p := prediction st pid in
    mkPrediction (name p) (options p)
      (aggregate_totals (HIngest EUint8 raw v) (HEncode EUint64 (value mod 2 ^ 64))
                        (HEncode EUint64 0) 0 (optionTotals p))
      (HAdd (encryptedPool p) (HEncode EUint64 (value mod 2 ^ 64)))
      (creator p) (createdAt p) (exists_ p).
Proof. unfold prediction at 1, placed. state_simpl. by rewrite lookup_insert_eq. Qed.

Lemma prediction_placed_other who value pid raw v st pid' :
  pid' <> pid ->
  prediction (placed who value pid raw v st) pid' = prediction st pid'.
Proof.
  intros Hne. unfold prediction, placed. state_simpl.
  by rewrite lookup_insert_ne.
Qed.

Lemma bet_placed_same who value pid raw v st :
  bet (placed who value pid raw v st) pid who
  = mkBetInfo (HEncode EUint64 (value mod 2 ^ 64)) (HIngest EUint8 raw v) true.
Proof. unfold bet, placed. state_simpl. by rewrite lookup_insert_eq. Qed.

Lemma bet_placed_other who value pid raw v st pid' who' :
  (pid', who') <> (pid, who) ->
  bet (placed who value pid raw v st) pid' who' = bet st pid' who'.
Proof.
  intros Hne. unfold bet, placed. state_simpl.
  by rewrite lookup_insert_ne.
Qed.

Lemma exists_lookup st pid :
  exists_ (prediction st pid) = true ->
  _predictions st !! pid = Some (prediction st pid).
Proof.
  unfold prediction. by destruct (_predictions st !! pid).
Qed.

Lemma betExists_lookup st pid who :
  betExists (bet st pid who) = true ->
  _bets st !! (pid, who) = Some (bet st pid who).
Proof.
  unfold bet. by destruct (_bets st !! (pid, who)).
Qed.

Lemma aggregate_totals_length sel amt zero totals :
  forall k, length (aggregate_totals sel amt zero k totals) = length totals.
Proof. induction totals as [|t r IH]; intros k; cbn; [done|]. by rewrite IH. Qed.

Lemma aggregate_totals_lookup sel amt zero totals : forall k i,
  aggregate_totals sel amt zero k totals !! i
  = new_total sel amt zero (k + i) <$> totals !! i.
Proof.
  induction totals as [|t r IH]; intros k i; [done|].
  destruct i as [|i]; cbn.
  - by rewrite Nat.add_0_r.
  - rewrite IH. by rewrite Nat.add_succ_r.
Qed.

(** ** Sums of stakes *)

Lemma sumN_app l l' : sumN (l ++ l') = sumN l + sumN l'.
Proof.
  unfold sumN. induction l as [|x l IH]; cbn [app fold_right]; [done|].
  rewrite IH. lia.
Qed.

Lemma staked_app pid l l' : staked pid (l ++ l') = staked pid l + staked pid l'.
Proof. unfold staked. by rewrite List.filter_app, List.map_app, sumN_app. Qed.

Lemma staked_on_app pid i l l' :
  staked_on pid i (l ++ l') = staked_on pid i l + staked_on pid i l'.
Proof. unfold staked_on. by rewrite List.filter_app, List.map_app, sumN_app. Qed.

Lemma staked_none pid l :
  (forall b, In b l -> placedOn b <> pid) -> staked pid l = 0.
Proof.
  intros H. unfold staked. induction l as [|b l IH]; [done|].
  cbn [List.filter]. unfold on_prediction at 1.
  destruct (N.eqb_spec (placedOn b) pid) as [E|_].
  - exfalso. eapply H; [by left | done].
  - apply IH. intros b' Hb'. apply H. by right.
Qed.

Lemma staked_on_none pid i l :
  (forall b, In b l -> placedOn b <> pid) -> staked_on pid i l = 0.
Proof.
  intros H. unfold staked_on. induction l as [|b l IH]; [done|].
  cbn [List.filter]. unfold on_option at 1.
  destruct (N.eqb_spec (placedOn b) pid) as [E|_].
  - exfalso. eapply H; [by left | done].
  - cbn [andb]. apply IH. intros b' Hb'. apply H. by right.
Qed.

(** * The invariant of reachable states *)

Lemma creations_app log log' : creations (log ++ log') = creations log ++ creations log'.
Proof. unfold creations. by rewrite flat_map_app. Qed.

Lemma creations_one r : creations [r] = creation r.
Proof. unfold creations. cbn [flat_map]. by rewrite app_nil_r. Qed.

Lemma creation_reverted tx e : creation (tx, Reverted e) = [].
Proof. unfold creation. cbn [fst snd]. by destruct (call tx). Qed.

Lemma creation_view tx o : is_view (call tx) = true -> creation (tx, o) = [].
Proof. unfold creation. cbn [fst snd]. by destruct (call tx). Qed.

Lemma in_ids n x : In x (map N.of_nat (seq 1 n)) -> 1 <= x <= N.of_nat n.
Proof.
  rewrite in_map_iff. intros (k & <- & Hk). apply in_seq in Hk. lia.
Qed.

Lemma slot_summary_created_old who ts nm opts st pid :
  pid <> _nextPredictionId st ->
  slot_summary (created who ts nm opts st) pid = slot_summary st pid.
Proof. intros H. unfold slot_summary. by rewrite prediction_created_old. Qed.

Lemma slot_summary_placed who value pid raw v st pid' :
  slot_summary (placed who value pid raw v st) pid' = slot_summary st pid'.
Proof.
  unfold slot_summary. destruct (N.eq_dec pid' pid) as [->|Hne].
  - rewrite prediction_placed_same. reflexivity.
  - by rewrite prediction_placed_other.
Qed.

Lemma mod_small_64 x : x <= uint64_max -> x mod 2 ^ 64 = x.
Proof. intros H. apply N.mod_small. unfold uint64_max in H. lia. Qed.

Section Invariant.

Variable verifyInput : externalEuint8 -> bytes -> option N.

Local Abbreviation bets_of := (placedBets verifyInput).

Lemma placedBets_app log log' :
  bets_of (log ++ log') = bets_of log ++ bets_of log'.
Proof. unfold placedBets. by rewrite flat_map_app. Qed.

Lemma placedBets_one r : bets_of [r] = placed_bet verifyInput r.
Proof. unfold placedBets. cbn [flat_map]. by rewrite app_nil_r. Qed.

Lemma placed_bet_reverted tx e : placed_bet verifyInput (tx, Reverted e) = [].
Proof. unfold placed_bet. cbn [fst snd]. by destruct (call tx). Qed.

Lemma placed_bet_view tx o :
  is_view (call tx) = true -> placed_bet verifyInput (tx, o) = [].
Proof. unfold placed_bet. cbn [fst snd]. by destruct (call tx). Qed.

Lemma Inv_initial : Inv verifyInput [] initial.
Proof.
  split; done.
Qed.

Lemma Inv_ghost log log' st :
  creations log' = creations log -> bets_of log' = bets_of log ->
  Inv verifyInput log st -> Inv verifyInput log' st.
Proof. intros Hc Hb [H1 H2 H3 H4 H5 H6 H7 H8 H9 H10 H11]. split; rewrite ?Hc, ?Hb; done. Qed.

(** A bet in the history is on a prediction that exists. *)
Lemma Inv_bet_on_existing log st pb :
  Inv verifyInput log st -> In pb (bets_of log) -> exists_ (prediction st (placedOn pb)) = true.
Proof.
  intros HI Hin.
  destruct (inv_stored _ _ _ HI pb Hin) as (Hb & _).
  apply betExists_lookup in Hb.
  by destruct (inv_bets _ _ _ HI _ _ _ Hb) as (_ & He & _).
Qed.

Lemma Inv_bet_below_next log st pb :
  Inv verifyInput log st -> In pb (bets_of log) -> placedOn pb <> _nextPredictionId st.
Proof.
  intros HI Hin E.
  pose proof (Inv_bet_on_existing _ _ _ HI Hin) as He.
  apply exists_lookup in He.
  rewrite (inv_fresh _ _ _ HI (placedOn pb)) in He by (rewrite E; lia).
  discriminate.
Qed.

Lemma Inv_fresh_zero log st pid :
  Inv verifyInput log st -> _nextPredictionId st <= pid -> prediction st pid = zeroPrediction.
Proof.
  intros HI Hpid. unfold prediction. by rewrite (inv_fresh _ _ _ HI pid Hpid).
Qed.

Lemma Inv_created log st tx nm opts :
  Inv verifyInput log st ->
  call tx = CreatePrediction nm opts ->
  (2 <= length opts <= 4)%nat ->
  Inv verifyInput (log ++ [(tx, Returned (RUint (_nextPredictionId st)))])
      (created (msg_sender tx) (block_timestamp tx) nm opts st).
Proof.
  intros HI Hcall Hlen.
  set (s := mkSummary (_nextPredictionId st) nm opts (msg_sender tx) (block_timestamp tx)).
  assert (Hc : creations (log ++ [(tx, Returned (RUint (_nextPredictionId st)))])
               = creations log ++ [s]).
  { rewrite creations_app. unfold creations at 2. cbn [flat_map].
    unfold creation. cbn [fst snd]. rewrite Hcall. by rewrite app_nil_r. }
  assert (Hb : bets_of (log ++ [(tx, Returned (RUint (_nextPredictionId st)))])
               = bets_of log).
  { rewrite placedBets_app. unfold placedBets at 2. cbn [flat_map].
    unfold placed_bet. cbn [fst snd]. rewrite Hcall. by rewrite !app_nil_r. }
  pose proof (inv_next _ _ _ HI) as Hnext.
  pose proof (Inv_fresh_zero _ _ _ HI (N.le_refl _)) as Hzero.
  assert (Hold : forall s', In s' (creations log) -> summaryId s' <> _nextPredictionId st).
  { intros s' Hs'. apply (in_map summaryId) in Hs'.
    rewrite (inv_seq _ _ _ HI) in Hs'. apply in_ids in Hs'. lia. }
  split; rewrite ?Hc, ?Hb.
  - cbn [created _nextPredictionId]. rewrite length_app. cbn [length]. lia.
  - cbn [created _predictionIds]. rewrite map_app. cbn [map summaryId s].
    by rewrite (inv_ids _ _ _ HI).
  - rewrite map_app, length_app. cbn [length map]. rewrite seq_app, map_app.
    rewrite (inv_seq _ _ _ HI). cbn [seq map summaryId s]. do 2 f_equal. lia.
  - intros pid Hpid. cbn [created _nextPredictionId _predictions] in *.
    rewrite lookup_insert_ne by lia. apply (inv_fresh _ _ _ HI). lia.
  - intros pid p. cbn [created _predictions].
    destruct (N.eq_dec pid (_nextPredictionId st)) as [->|Hne].
    + rewrite lookup_insert_eq, Hzero. intros [= <-].
      cbn [exists_ options optionTotals zeroPrediction app].
      by rewrite length_replicate.
    + rewrite lookup_insert_ne by done. apply (inv_pred _ _ _ HI).
  - intros s' [Hs'|[<-|[]]]%in_app_or.
    + rewrite slot_summary_created_old by by apply Hold.
      by apply (inv_created _ _ _ HI).
    + unfold slot_summary. cbn [summaryId s].
      rewrite prediction_created_new, Hzero. reflexivity.
  - intros pid u b Hlook. cbn [created _bets] in Hlook.
    destruct (inv_bets _ _ _ HI _ _ _ Hlook) as (Hb1 & Hb2 & Hb3).
    split; [done|]. split; [|done].
    rewrite prediction_created_old; [done|].
    intros ->. by rewrite Hzero in Hb2.
  - intros pb Hin. apply (inv_stored _ _ _ HI pb Hin).
  - intros pid. destruct (N.eq_dec pid (_nextPredictionId st)) as [->|Hne].
    + rewrite prediction_created_new. cbn [encryptedPool decrypt].
      rewrite staked_none; [reflexivity|].
      intros pb Hin. by apply (Inv_bet_below_next _ _ _ HI).
    + rewrite prediction_created_old by done. apply (inv_pool _ _ _ HI).
  - intros pid i t. destruct (N.eq_dec pid (_nextPredictionId st)) as [->|Hne].
    + rewrite prediction_created_new, Hzero.
      cbn [optionTotals zeroPrediction app]. intros Ht.
      apply lookup_replicate in Ht as [-> _]. cbn [decrypt].
      rewrite staked_on_none; [reflexivity|].
      intros pb Hin. by apply (Inv_bet_below_next _ _ _ HI).
    + rewrite prediction_created_old by done. apply (inv_totals _ _ _ HI).
  - apply (inv_balance _ _ _ HI).
Qed.

Lemma decrypt_new_total raw v value i t :
  (i < 256)%nat ->
  value <= uint64_max ->
  decrypt (new_total (HIngest EUint8 raw v) (HEncode EUint64 (value mod 2 ^ 64))
                     (HEncode EUint64 0) i t)
  = (decrypt t + (if v mod 2 ^ 8 =? N.of_nat i then value else 0)) mod 2 ^ 64.
Proof.
  intros Hi Hv. unfold new_total. cbn [decrypt bitwidth].
  rewrite (N.mod_small (N.of_nat i) (2 ^ 8)) by (change (2 ^ 8) with 256; lia).
  rewrite (N.mod_small (N.of_nat i) (2 ^ 8)) by (change (2 ^ 8) with 256; lia).
  rewrite (mod_small_64 value Hv), (mod_small_64 value Hv).
  destruct (v mod 2 ^ 8 =? N.of_nat i); reflexivity.
Qed.

Lemma staked_single pid pb :
  staked pid [pb] = if placedOn pb =? pid then stake pb else 0.
Proof.
  unfold staked, on_prediction. cbn [List.filter].
  destruct (placedOn pb =? pid); cbn [map sumN fold_right]; lia.
Qed.

Lemma staked_on_single pid i pb :
  staked_on pid i [pb]
  = if (placedOn pb =? pid) && (selection pb =? i) then stake pb else 0.
Proof.
  unfold staked_on, on_option. cbn [List.filter].
  destruct (_ && _); cbn [map sumN fold_right]; lia.
Qed.

Lemma Inv_placed log st tx pid raw proof v :
  Inv verifyInput log st ->
  call tx = PlaceEncryptedBet pid raw proof ->
  exists_ (prediction st pid) = true ->
  0 < msg_value tx <= uint64_max ->
  betExists (bet st pid (msg_sender tx)) = false ->
  verifyInput raw proof = Some v ->
  Inv verifyInput (log ++ [(tx, Returned RUnit)])
      (placed (msg_sender tx) (msg_value tx) pid raw v (credit (msg_value tx) st)).
Proof.
  intros HI Hcall Hex Hval Hnobet Hver.
  set (pb := mkPlaced pid (msg_sender tx) (msg_value tx) (v mod 2 ^ 8)).
  assert (Hc : creations (log ++ [(tx, Returned RUnit)]) = creations log).
  { rewrite creations_app. unfold creations at 2. cbn [flat_map].
    unfold creation. cbn [fst snd]. rewrite Hcall. by rewrite !app_nil_r. }
  assert (Hb : bets_of (log ++ [(tx, Returned RUnit)]) = bets_of log ++ [pb]).
  { rewrite placedBets_app. unfold placedBets at 2. cbn [flat_map].
    unfold placed_bet, attested. cbn [fst snd]. rewrite Hcall, Hver.
    by rewrite app_nil_r. }
  set (st0 := credit (msg_value tx) st).
  assert (Hpred : forall q, prediction st0 q = prediction st q) by reflexivity.
  assert (Hbet : forall q u, bet st0 q u = bet st q u) by reflexivity.
  pose proof (exists_lookup _ _ Hex) as Hlook.
  destruct (inv_pred _ _ _ HI _ _ Hlook) as (_ & Hopts & Hlen).
  assert (Hother : forall pb', In pb' (bets_of log) ->
            (placedOn pb', placedBy pb') <> (pid, msg_sender tx)).
  { intros pb' Hin [= E1 E2].
    destruct (inv_stored _ _ _ HI pb' Hin) as (Hb' & _).
    rewrite E1, E2 in Hb'. congruence. }
  split; rewrite ?Hc, ?Hb.
  - apply (inv_next _ _ _ HI).
  - apply (inv_ids _ _ _ HI).
  - apply (inv_seq _ _ _ HI).
  - intros q Hq. cbn [placed _nextPredictionId _predictions st0 credit] in *.
    rewrite lookup_insert_ne; [by apply (inv_fresh _ _ _ HI)|].
    intros <-. rewrite (inv_fresh _ _ _ HI pid Hq) in Hlook. discriminate.
  - intros q p. cbn [placed _predictions].
    destruct (N.eq_dec q pid) as [->|Hne].
    + rewrite lookup_insert_eq, Hpred. intros [= <-].
      cbn [exists_ options optionTotals].
      by rewrite aggregate_totals_length.
    + rewrite lookup_insert_ne by done. apply (inv_pred _ _ _ HI).
  - intros s Hs. rewrite slot_summary_placed. by apply (inv_created _ _ _ HI).
  - intros q u b. cbn [placed _bets st0 credit].
    destruct (decide ((q, u) = (pid, msg_sender tx))) as [[= -> ->]|Hne].
    + rewrite lookup_insert_eq. intros [= <-]. cbn [betExists].
      split; [done|]. split.
      * rewrite prediction_placed_same, Hpred. exact Hex.
      * exists pb. split; [|done]. apply in_or_app. right. by left.
    + rewrite lookup_insert_ne by done. intros Hq.
      destruct (inv_bets _ _ _ HI _ _ _ Hq) as (Hb1 & Hb2 & pb' & Hin & Hon & Hby).
      split; [done|]. split.
      * destruct (N.eq_dec q pid) as [->|Hqp].
        -- rewrite prediction_placed_same, Hpred. exact Hex.
        -- by rewrite prediction_placed_other, Hpred.
      * exists pb'. split; [|done]. apply in_or_app. by left.
  - intros pb' [Hin|[<-|[]]]%in_app_or.
    + rewrite bet_placed_other, Hbet by by apply Hother.
      by apply (inv_stored _ _ _ HI).
    + cbn [placedOn placedBy pb]. rewrite bet_placed_same.
      cbn [betExists encryptedAmount encryptedSelection decrypt bitwidth stake
           selection].
      rewrite (mod_small_64 _ (proj2 Hval)), (mod_small_64 _ (proj2 Hval)).
      done.
  - intros q. rewrite staked_app. destruct (N.eq_dec q pid) as [->|Hne].
    + rewrite prediction_placed_same, Hpred. cbn [encryptedPool decrypt bitwidth].
      rewrite (inv_pool _ _ _ HI pid).
      rewrite (mod_small_64 _ (proj2 Hval)), (mod_small_64 _ (proj2 Hval)).
      rewrite staked_single. cbn [placedOn stake pb]. rewrite N.eqb_refl.
      by rewrite N.Div0.add_mod_idemp_l.
    + rewrite prediction_placed_other, Hpred by done. rewrite (inv_pool _ _ _ HI q).
      rewrite staked_single. cbn [placedOn stake pb].
      rewrite (proj2 (N.eqb_neq pid q)) by done. by rewrite N.add_0_r.
  - intros q i t. rewrite staked_on_app. destruct (N.eq_dec q pid) as [->|Hne].
    + rewrite prediction_placed_same, Hpred. cbn [optionTotals].
      rewrite aggregate_totals_lookup. cbn [Nat.add].
      destruct (optionTotals (prediction st pid) !! i) as [t0|] eqn:Ht0; [|done].
      cbn [fmap option_fmap option_map]. intros [= <-].
      assert (Hi : (i < 256)%nat).
      { apply lookup_lt_Some in Ht0. lia. }
      rewrite decrypt_new_total by (done || apply Hval).
      rewrite (inv_totals _ _ _ HI pid i t0 Ht0).
      rewrite staked_on_single. cbn [placedOn selection stake pb].
      rewrite N.eqb_refl. cbn [andb].
      destruct (v mod 2 ^ 8 =? N.of_nat i).
      * by rewrite N.Div0.add_mod_idemp_l.
      * rewrite !N.add_0_r. by rewrite N.Div0.mod_mod.
    + rewrite prediction_placed_other, Hpred by done. intros Ht.
      rewrite (inv_totals _ _ _ HI q i t Ht).
      rewrite staked_on_single. cbn [placedOn pb].
      rewrite (proj2 (N.eqb_neq pid q)) by done. cbn [andb]. by rewrite N.add_0_r.
  - cbn [placed balance st0 credit]. rewrite map_app, sumN_app.
    rewrite (inv_balance _ _ _ HI). cbn [map sumN fold_right stake pb]. lia.
Qed.

Lemma Inv_step log st tx :
  Inv verifyInput log st ->
  Inv verifyInput (log ++ [(tx, fst (execute verifyInput tx st))]) (step verifyInput st tx).
Proof.
  intros HI. unfold step.
  destruct (execute_transition verifyInput tx st)
    as [nm opts Hcall _ _ Hlen _ _ | pid raw proof v Hcall Hex _ Hval Hnobet Hver
       | e | v Hview].
  - by apply Inv_created.
  - by eapply Inv_placed.
  - eapply Inv_ghost; [| |exact HI].
    + by rewrite creations_app, (creations_one _), creation_reverted, app_nil_r.
    + by rewrite placedBets_app, (placedBets_one _), placed_bet_reverted, app_nil_r.
  - eapply Inv_ghost; [| |exact HI].
    + by rewrite creations_app, (creations_one _), creation_view, app_nil_r.
    + by rewrite placedBets_app, (placedBets_one _), placed_bet_view, app_nil_r.
Qed.

Lemma Inv_run txs : forall log st,
  Inv verifyInput log st -> Inv verifyInput (log ++ receipts verifyInput txs st) (run verifyInput txs st).
Proof.
  induction txs as [|tx txs IH]; intros log st HI.
  - cbn [receipts run fold_left]. by rewrite app_nil_r.
  - cbn [receipts]. unfold run. cbn [fold_left].
    change (fold_left (step verifyInput) txs ?s) with (run verifyInput txs s).
    rewrite (cons_middle _ log), app_assoc.
    apply IH. by apply Inv_step.
Qed.

(** Every state reached from the initial one satisfies the invariant. *)
Lemma Inv_reachable txs :
  Inv verifyInput (receipts verifyInput txs initial) (run verifyInput txs initial).
Proof. apply (Inv_run txs [] initial Inv_initial). Qed.

End Invariant.

(** * Sequential identifiers *)

Section Properties.

Variable verifyInput : externalEuint8 -> bytes -> option N.

(** C7: prediction ids are handed out sequentially from 1 and never reused.
    Over any sequence of transactions run from the initial state, the ids
    returned by the successful calls of [createPrediction], in order, are
    1, 2, ..., n, and [getPredictionCount] then returns n. *)
Theorem prediction_ids_sequential (txs : list Tx) :
  let log := receipts verifyInput txs initial in
  let ids := map summaryId (creations log) in
  ids = map N.of_nat (seq 1 (length ids))
  /\ getPredictionCount (run verifyInput txs initial)
     = Ok (N.of_nat (length ids)) (run verifyInput txs initial).
Proof.
  intros log ids. pose proof (Inv_reachable verifyInput txs) as HI.
  split.
  - subst ids. rewrite length_map. apply (inv_seq _ _ _ HI).
  - rewrite getPredictionCount_run. subst ids log.
    by rewrite (inv_ids _ _ _ HI).
Qed.

Lemma listed_ids_exist (txs : list Tx) (id : uint256) :
  In id (_predictionIds (run verifyInput txs initial)) ->
  exists_ (prediction (run verifyInput txs initial) id) = true.
Proof.
  pose proof (Inv_reachable verifyInput txs) as HI. intros Hin.
  rewrite (inv_ids _ _ _ HI) in Hin.
  pose proof Hin as Hpos. rewrite (inv_seq _ _ _ HI) in Hpos. apply in_ids in Hpos.
  apply in_map_iff in Hin as (s & <- & Hs).
  pose proof (inv_created _ _ _ HI s Hs) as Hslot. unfold slot_summary in Hslot.
  destruct (exists_ _); [done|]. rewrite <- Hslot in Hpos. cbn in Hpos. lia.
Qed.

(** C8: in every reachable state [listPredictions] returns, leaving the state
    as it is, exactly one summary per successful creation, in creation order,
    each carrying the id returned and the name, options, creator and
    timestamp of that creation; every listed id exists, so the result holds
    no entry for an id that was never created. *)
Theorem listPredictions_creation_order (txs : list Tx) :
  let st := run verifyInput txs initial in
  listPredictions st = Ok (creations (receipts verifyInput txs initial)) st
  /\ forall id, In id (_predictionIds st) -> exists_ (prediction st id) = true.
Proof.
  intros st. pose proof (Inv_reachable verifyInput txs) as HI. split.
  - rewrite listPredictions_run. apply (f_equal (fun l => Ok l st)).
    subst st. rewrite (inv_ids _ _ _ HI), map_map.
    rewrite <- (map_id (creations _)) at 2.
    apply map_ext_in. intros s Hs. by apply (inv_created _ _ _ HI).
  - apply listed_ids_exist.
Qed.

(** * Shape of the totals *)

Lemma lengths_reachable (txs : list Tx) (pid : uint256) :
  let p := prediction (run verifyInput txs initial) pid in
  length (optionTotals p) = length (options p)
  /\ (exists_ p = true -> (2 <= length (options p) <= 4)%nat).
Proof.
  intros p. pose proof (Inv_reachable verifyInput txs) as HI.
  subst p. unfold prediction.
  destruct (_predictions _ !! pid) as [p|] eqn:Hp; [|done].
  destruct (inv_pred _ _ _ HI _ _ Hp) as (_ & ? & ?). done.
Qed.

(** C9: in every reachable state [optionTotals] has the length of [options],
    for every prediction id.  A successful [createPrediction] stores the
    options it was given and as many totals; a successful
    [placeEncryptedBet] changes neither the options nor the length of the
    totals of any prediction. *)
Theorem optionTotals_length (txs : list Tx) :
  let st := run verifyInput txs initial in
  (forall pid,
      length (optionTotals (prediction st pid)) = length (options (prediction st pid)))
  /\ (forall who ts nm opts,
        match createPrediction who ts nm opts st with
        | Ok id st' =>
            options (prediction st' id) = opts
            /\ length (optionTotals (prediction st' id)) = length opts
        | Revert _ => True
        end)
  /\ (forall who value pid raw proof,
        match placeEncryptedBet verifyInput who value pid raw proof st with
        | Ok _ st' =>
            forall q,
              options (prediction st' q) = options (prediction st q)
              /\ length (optionTotals (prediction st' q))
                 = length (optionTotals (prediction st q))
        | Revert _ => True
        end).
Proof.
  intros st. pose proof (Inv_reachable verifyInput txs) as HI.
  split; [|split].
  - intros pid. apply (lengths_reachable txs pid).
  - fold st in HI. clearbody st. revert HI.
    generalize (receipts verifyInput txs initial). intros log HI.
    intros who ts nm opts. rewrite createPrediction_run.
    destruct (is_empty nm); [done|]. destruct (_ || _); [done|].
    destruct (existsb _ _); [done|]. destruct (_ =? _); [done|].
    rewrite prediction_created_new.
    rewrite (Inv_fresh_zero _ _ _ _ HI (N.le_refl _)).
    cbn [options optionTotals zeroPrediction app].
    by rewrite length_replicate.
  - intros who value pid raw proof. rewrite placeEncryptedBet_run. cbv zeta.
    destruct (negb _); [done|]. destruct (_ =? _)%nat; [done|].
    destruct (_ || _); [done|]. destruct (betExists _); [done|].
    destruct (verifyInput raw proof) as [v|]; [|done].
    intros q. destruct (N.eq_dec q pid) as [->|Hne].
    + rewrite prediction_placed_same. cbn [options optionTotals].
      by rewrite aggregate_totals_length.
    + by rewrite prediction_placed_other.
Qed.

(** * Value held by the contract *)

Lemma balance_step (tx : Tx) (st : State) :
  balance (step verifyInput st tx)
  = balance st + sumN (map stake (placed_bet verifyInput (tx, fst (execute verifyInput tx st)))).
Proof.
  unfold step.
  destruct (execute_transition verifyInput tx st)
    as [nm opts Hcall _ _ Hlen _ _ | pid raw proof v Hcall Hex _ Hval Hnobet Hver
       | e | v Hview].
  - unfold placed_bet. cbn [fst snd]. rewrite Hcall.
    cbn [created balance map sumN fold_right]. lia.
  - unfold placed_bet. cbn [fst snd]. rewrite Hcall.
    cbn [placed credit balance map sumN fold_right stake]. lia.
  - rewrite placed_bet_reverted. cbn [map sumN fold_right]. lia.
  - rewrite placed_bet_view by done. cbn [map sumN fold_right]. lia.
Qed.

Lemma balance_run (txs : list Tx) : forall st,
  balance st <= balance (run verifyInput txs st).
Proof.
  induction txs as [|tx txs IH]; intros st; [done|].
  unfold run. cbn [fold_left].
  change (fold_left (step verifyInput) txs ?s) with (run verifyInput txs s).
  etrans; [|apply IH]. rewrite balance_step. lia.
Qed.

(** C10: stakes stay locked.  In every reachable state the value held is the
    sum of the stakes attached to the bets placed so far; one more
    transaction adds the stake of the bet it places, if it places one, and
    nothing otherwise; a call to any entry point other than
    [placeEncryptedBet] leaves the value as it is; and the value never
    decreases along any continuation. *)
Theorem stakes_stay_locked (txs : list Tx) (tx : Tx) :
  let st := run verifyInput txs initial in
  balance st = sumN (map stake (placedBets verifyInput (receipts verifyInput txs initial)))
  /\ balance (step verifyInput st tx)
     = balance st
       + sumN (map stake (placed_bet verifyInput (tx, fst (execute verifyInput tx st))))
  /\ (payable (call tx) = false -> balance (step verifyInput st tx) = balance st)
  /\ forall more, balance st <= balance (run verifyInput more st).
Proof.
  intros st. pose proof (Inv_reachable verifyInput txs) as HI.
  split; [apply (inv_balance _ _ _ HI)|]. split; [apply balance_step|].
  split; [|intros more; apply balance_run].
  intros Hpay. rewrite balance_step. unfold placed_bet. cbn [fst snd].
  destruct (call tx); try discriminate; cbn [map sumN fold_right]; lia.
Qed.

(** * Rejected calls *)

Lemma is_empty_spec (s : string) : is_empty s = true <-> s = "".
Proof. unfold is_empty. destruct s; cbn; [done|]. split; discriminate. Qed.

Lemma existsb_is_empty (opts : list string) :
  existsb is_empty opts = true <-> In "" opts.
Proof.
  rewrite existsb_exists. split.
  - intros (s & Hin & Hs). apply is_empty_spec in Hs. by subst.
  - intros Hin. exists "". by split.
Qed.

Lemma execute_reverted (tx : Tx) (st : State) (e : Error) :
  dispatch verifyInput tx st = Revert e ->
  execute verifyInput tx st = (Reverted e, st).
Proof. unfold execute. by intros ->. Qed.

Lemma dispatch_create who ts nm opts st :
  dispatch verifyInput (mkTx who 0 ts (CreatePrediction nm opts)) st
  = fmap_ret RUint (createPrediction who ts nm opts) st.
Proof. rewrite dispatch_run. cbn. by rewrite credit_0. Qed.

Lemma dispatch_bet who value ts pid raw proof st :
  dispatch verifyInput (mkTx who value ts (PlaceEncryptedBet pid raw proof)) st
  = fmap_ret (fun _ => RUnit)
      (placeEncryptedBet verifyInput who value pid raw proof) (credit value st).
Proof. rewrite dispatch_run. reflexivity. Qed.

(** C4: the checks of [createPrediction], in the order they are made.  An
    empty name fails with [EmptyName]; with a name, fewer than 2 or more than
    4 options fail with [InvalidOptionsCount]; with a name and 2 to 4 options,
    an empty option fails with [EmptyOption].  Each failure leaves the state
    as it was, and with it [getPredictionCount]. *)
Theorem createPrediction_validation
    (who : address) (ts : uint256) (nm : string) (opts : list string) (st : State) :
  let tx := mkTx who 0 ts (CreatePrediction nm opts) in
  (nm = "" -> execute verifyInput tx st = (Reverted EmptyName, st))
  /\ (nm <> "" -> (length opts < 2 \/ 4 < length opts)%nat ->
      execute verifyInput tx st = (Reverted InvalidOptionsCount, st))
  /\ (nm <> "" -> (2 <= length opts <= 4)%nat -> In "" opts ->
      execute verifyInput tx st = (Reverted EmptyOption, st))
  /\ (nm = "" \/ (length opts < 2 \/ 4 < length opts)%nat \/ In "" opts ->
      (exists e, createPrediction who ts nm opts st = Revert e)
      /\ getPredictionCount (snd (execute verifyInput tx st)) = getPredictionCount st).
Proof.
  intros tx.
  assert (Hname : nm = "" -> createPrediction who ts nm opts st = Revert EmptyName).
  { intros ->. by rewrite createPrediction_run. }
  assert (Hcount : nm <> "" -> (length opts < 2 \/ 4 < length opts)%nat ->
            createPrediction who ts nm opts st = Revert InvalidOptionsCount).
  { intros Hnm Hlen. rewrite createPrediction_run.
    destruct (is_empty nm) eqn:E; [by apply is_empty_spec in E|].
    replace ((length opts <? 2)%nat || (4 <? length opts)%nat) with true; [done|].
    symmetry. apply orb_true_iff.
    destruct Hlen; [left; by apply Nat.ltb_lt | right; by apply Nat.ltb_lt]. }
  assert (Hopt : nm <> "" -> (2 <= length opts <= 4)%nat -> In "" opts ->
            createPrediction who ts nm opts st = Revert EmptyOption).
  { intros Hnm Hlen Hin. rewrite createPrediction_run.
    destruct (is_empty nm) eqn:E; [by apply is_empty_spec in E|].
    replace ((length opts <? 2)%nat || (4 <? length opts)%nat) with false.
    - apply existsb_is_empty in Hin. by rewrite Hin.
    - symmetry. apply orb_false_iff. split; apply Nat.ltb_ge; lia. }
  assert (Hexec : forall e, createPrediction who ts nm opts st = Revert e ->
            execute verifyInput tx st = (Reverted e, st)).
  { intros e He. apply execute_reverted. subst tx. rewrite dispatch_create.
    unfold fmap_ret, bind. by rewrite He. }
  split; [|split; [|split]].
  - intros H. by apply Hexec, Hname.
  - intros H1 H2. by apply Hexec, Hcount.
  - intros H1 H2 H3. by apply Hexec, Hopt.
  - intros H.
    assert (exists e, createPrediction who ts nm opts st = Revert e) as [e He].
    { destruct (decide (nm = "")) as [E|E]; [eexists; by apply Hname|].
      destruct (decide (length opts < 2 \/ 4 < length opts)%nat) as [L|L];
        [eexists; by apply Hcount|].
      destruct H as [H|[H|H]]; [done|done|].
      eexists. apply Hopt; [done|lia|done]. }
    split; [by exists e|]. by rewrite (Hexec e He).
Qed.

(** C5: on a prediction that exists in a reachable state,
    [placeEncryptedBet] fails with [InvalidBetAmount] exactly when the
    attached stake is zero or above the largest 64-bit value, and the
    transaction then leaves the state as it was. *)
Theorem bet_amount_validation (txs : list Tx)
    (who : address) (value ts : uint256) (pid : uint256)
    (raw : externalEuint8) (proof : bytes) :
  let st := run verifyInput txs initial in
  exists_ (prediction st pid) = true ->
  (placeEncryptedBet verifyInput who value pid raw proof st = Revert InvalidBetAmount
   <-> value = 0 \/ uint64_max < value)
  /\ (value = 0 \/ uint64_max < value ->
      execute verifyInput (mkTx who value ts (PlaceEncryptedBet pid raw proof)) st
      = (Reverted InvalidBetAmount, st)).
Proof.
  intros st Hex.
  destruct (lengths_reachable txs pid) as [Hlen Hopts]. fold st in Hlen, Hopts.
  specialize (Hopts Hex).
  assert (Hrun : placeEncryptedBet verifyInput who value pid raw proof st
            = if (value =? 0) || (uint64_max <? value) then Revert InvalidBetAmount
              else if betExists (bet st pid who) then Revert BetAlreadyPlaced
              else match verifyInput raw proof with
                   | Some v => Ok tt (placed who value pid raw v st)
                   | None => Revert ProofInvalid
                   end).
  { rewrite placeEncryptedBet_run. cbv zeta. rewrite Hex. cbn [negb].
    destruct (length (optionTotals (prediction st pid))) eqn:E; [lia|done]. }
  assert (Hbad : value = 0 \/ uint64_max < value <->
            (value =? 0) || (uint64_max <? value) = true).
  { rewrite orb_true_iff, N.eqb_eq, N.ltb_lt. done. }
  split; [split|].
  - rewrite Hrun, Hbad. destruct (_ || _); [done|].
    destruct (betExists _); [discriminate|].
    destruct (verifyInput raw proof); discriminate.
  - intros H%Hbad. by rewrite Hrun, H.
  - intros H%Hbad. apply execute_reverted. rewrite dispatch_bet.
    unfold fmap_ret, bind.
    rewrite placeEncryptedBet_run. cbv zeta.
    change (prediction (credit value st) pid) with (prediction st pid).
    rewrite Hex. cbn [negb].
    destruct (length (optionTotals (prediction st pid))) eqn:E; [lia|].
    cbn [Nat.eqb]. by rewrite H.
Qed.

(** * Reading a bet back *)

(** C6: [getUserBet] in a reachable state.  It fails with
    [InvalidPrediction] when the prediction does not exist.  When it exists
    and the identity placed no bet on it, the result is the all-zero handle
    twice and [false], with no error.  When the identity placed a bet on it,
    the result is the stored amount and selection handles and [true], and
    they decrypt to the stake attached to that bet and to its selection. *)
Theorem getUserBet_cases (txs : list Tx) (pid : uint256) (user : address) :
  let st := run verifyInput txs initial in
  let bets := placedBets verifyInput (receipts verifyInput txs initial) in
  (exists_ (prediction st pid) = false ->
   getUserBet pid user st = Revert InvalidPrediction)
  /\ (exists_ (prediction st pid) = true ->
      (forall pb, In pb bets -> ~ (placedOn pb = pid /\ placedBy pb = user)) ->
      getUserBet pid user st = Ok (HNull, HNull, false) st)
  /\ (forall pb, In pb bets -> placedOn pb = pid -> placedBy pb = user ->
      getUserBet pid user st
      = Ok (encryptedAmount (bet st pid user), encryptedSelection (bet st pid user), true) st
      /\ decrypt (encryptedAmount (bet st pid user)) = stake pb
      /\ decrypt (encryptedSelection (bet st pid user)) = selection pb).
Proof.
  intros st bets. pose proof (Inv_reachable verifyInput txs) as HI.
  fold st bets in HI. split; [|split].
  - intros Hex. by rewrite getUserBet_run, Hex.
  - intros Hex Hnone. rewrite getUserBet_run, Hex.
    unfold bet. destruct (_bets st !! (pid, user)) as [b|] eqn:Hb; [|done].
    destruct (inv_bets _ _ _ HI _ _ _ Hb) as (_ & _ & pb & Hin & Hon & Hby).
    exfalso. by apply (Hnone pb Hin).
  - intros pb Hin <- <-.
    destruct (inv_stored _ _ _ HI pb Hin) as (Hb & Ha & Hs).
    rewrite getUserBet_run, (Inv_bet_on_existing _ _ _ _ HI Hin), Hb. done.
Qed.

(** * A second bet *)

(** C3, amended: once an identity has placed a bet on a prediction, every
    further [placeEncryptedBet] by that identity on that prediction reverts
    and leaves the whole state as it was.  The error is [BetAlreadyPlaced]
    when the attached stake is non-zero and at most the largest 64-bit value,
    and [InvalidBetAmount] otherwise, the stake being checked first. *)
Theorem second_bet_rejected (txs : list Tx) (pb : PlacedBet)
    (value ts : uint256) (raw : externalEuint8) (proof : bytes) :
  let st := run verifyInput txs initial in
  In pb (placedBets verifyInput (receipts verifyInput txs initial)) ->
  execute verifyInput
          (mkTx (placedBy pb) value ts (PlaceEncryptedBet (placedOn pb) raw proof)) st
  = (Reverted (if (value =? 0) || (uint64_max <? value)
               then InvalidBetAmount else BetAlreadyPlaced), st).
Proof.
  intros st Hin. pose proof (Inv_reachable verifyInput txs) as HI. fold st in HI.
  destruct (inv_stored _ _ _ HI pb Hin) as (Hb & _).
  pose proof (Inv_bet_on_existing _ _ _ _ HI Hin) as Hex.
  destruct (lengths_reachable txs (placedOn pb)) as [Hlen Hopts].
  fold st in Hlen, Hopts. specialize (Hopts Hex).
  apply execute_reverted. rewrite dispatch_bet. unfold fmap_ret, bind.
  rewrite placeEncryptedBet_run. cbv zeta.
  change (prediction (credit value st) ?q) with (prediction st q).
  change (bet (credit value st) ?q ?u) with (bet st q u).
  rewrite Hex, Hb. cbn [negb].
  destruct (length (optionTotals (prediction st (placedOn pb)))) eqn:E; [lia|].
  cbn [Nat.eqb]. by destruct (_ || _).
Qed.

(** * The shape of a bet *)

Lemma aggregate_ops_kinds who sel amt zero totals : forall k,
  map op_kind (aggregate_ops who sel amt zero k totals)
  = concat (replicate (length totals) (option_kinds who)).
Proof.
  induction totals as [|t r IH]; intros k; [done|].
  cbn [aggregate_ops length replicate concat]. rewrite map_app, IH. done.
Qed.

Lemma bet_ops_kinds who value raw v p :
  map op_kind (bet_ops who value raw v p) = bet_kinds who (length (optionTotals p)).
Proof.
  unfold bet_ops, bet_kinds. cbv zeta. rewrite map_app, aggregate_ops_kinds. done.
Qed.

(** C2: two calls of [placeEncryptedBet] from the same state, by the same
    caller with the same stake on the same prediction, whose selections are
    both verified inputs, either both revert with the same error or both
    succeed.  When they succeed they issue primitives of the same kinds in the
    same order: the kinds depend on the caller and the number of options
    only, with one equality test, select, add and three grants per option;
    and every total, at every index, is replaced by its sum with the
    selected addition. *)
Theorem bet_is_oblivious (who : address) (value pid : uint256) (st : State)
    (raw1 raw2 : externalEuint8) (proof1 proof2 : bytes) (v1 v2 : N) :
  verifyInput raw1 proof1 = Some v1 ->
  verifyInput raw2 proof2 = Some v2 ->
  match placeEncryptedBet verifyInput who value pid raw1 proof1 st,
        placeEncryptedBet verifyInput who value pid raw2 proof2 st with
  | Ok _ st1, Ok _ st2 =>
      let old := optionTotals (prediction st pid) in
      let amt := HEncode EUint64 (value mod 2 ^ 64) in
      let zero := HEncode EUint64 0 in
      map op_kind (fheLog st1) = map op_kind (fheLog st2)
      /\ map op_kind (fheLog st1)
         = map op_kind (fheLog st) ++ bet_kinds who (length old)
      /\ forall i t, old !! i = Some t ->
           optionTotals (prediction st1 pid) !! i
           = Some (new_total (HIngest EUint8 raw1 v1) amt zero i t)
           /\ optionTotals (prediction st2 pid) !! i
              = Some (new_total (HIngest EUint8 raw2 v2) amt zero i t)
  | Revert e1, Revert e2 => e1 = e2
  | _, _ => False
  end.
Proof.
  intros H1 H2. rewrite !placeEncryptedBet_run. cbv zeta. rewrite H1, H2.
  destruct (negb _); [done|]. destruct (_ =? _)%nat; [done|].
  destruct (_ || _); [done|]. destruct (betExists _); [done|].
  assert (Hk : forall raw v,
    map op_kind (fheLog (placed who value pid raw v st))
    = map op_kind (fheLog st)
      ++ bet_kinds who (length (optionTotals (prediction st pid)))).
  { intros raw v. cbn [placed fheLog]. by rewrite map_app, bet_ops_kinds. }
  split; [by rewrite !Hk|]. split; [apply Hk|].
  intros i t Ht. rewrite !prediction_placed_same. cbn [optionTotals].
  rewrite !aggregate_totals_lookup, Ht. done.
Qed.

(** * What the totals decrypt to *)

Lemma sumN_plus {A} (f g : A -> N) l :
  sumN (map (fun x => f x + g x) l) = sumN (map f l) + sumN (map g l).
Proof.
  unfold sumN. induction l as [|x l IH]; cbn [map fold_right]; [done|].
  rewrite IH. lia.
Qed.

Lemma sumN_mod {A} (f : A -> N) l :
  sumN (map (fun x => f x mod 2 ^ 64) l) mod 2 ^ 64 = sumN (map f l) mod 2 ^ 64.
Proof.
  unfold sumN. induction l as [|x l IH]; cbn [map fold_right]; [done|].
  rewrite N.Div0.add_mod_idemp_l. rewrite <- N.Div0.add_mod_idemp_r, IH.
  by rewrite N.Div0.add_mod_idemp_r.
Qed.

Lemma sumN_zero {A} (f : A -> N) l :
  (forall x, In x l -> f x = 0) -> sumN (map f l) = 0.
Proof.
  unfold sumN. induction l as [|x l IH]; intros H; cbn [map fold_right]; [done|].
  rewrite IH, (H x) by (intros; apply H; by right) || by left. done.
Qed.

Lemma sumN_pick (x s : N) : forall n,
  sumN (map (fun i => if x =? N.of_nat i then s else 0) (seq 0 n))
  = if x <? N.of_nat n then s else 0.
Proof.
  induction n as [|n IH]; [by destruct (x <? _) eqn:E; [apply N.ltb_lt in E; lia|]|].
  rewrite seq_S, map_app, sumN_app, IH. cbn [map sumN fold_right Nat.add].
  destruct (N.ltb_spec x (N.of_nat n)), (N.ltb_spec x (N.of_nat (S n))),
    (N.eqb_spec x (N.of_nat n)); lia.
Qed.

Lemma staked_split pid n bets :
  selections_valid pid n bets = true ->
  sumN (map (fun i => staked_on pid (N.of_nat i) bets) (seq 0 n)) = staked pid bets.
Proof.
  induction bets as [|b r IH]; intros Hv.
  - apply sumN_zero. done.
  - cbn [selections_valid forallb] in Hv. apply andb_true_iff in Hv as [Hb Hr].
    change (b :: r) with ([b] ++ r). rewrite staked_app.
    erewrite map_ext; [|intros i; by rewrite staked_on_app, staked_on_single].
    rewrite sumN_plus, (IH Hr), staked_single. f_equal.
    destruct (placedOn b =? pid); cbn [negb orb andb] in *.
    + rewrite sumN_pick. by rewrite Hb.
    + by apply sumN_zero.
Qed.

Lemma staked_on_le pid i bets : staked_on pid i bets <= staked pid bets.
Proof.
  unfold staked_on, staked, on_option, on_prediction, sumN.
  induction bets as [|b r IH]; [done|].
  cbn [List.filter]. destruct (placedOn b =? pid); cbn [andb]; [|done].
  destruct (selection b =? i); cbn [map fold_right]; lia.
Qed.

Lemma map_decrypt_totals (F : nat -> N) totals : forall k,
  (forall i t, totals !! i = Some t -> decrypt t = F (k + i)%nat) ->
  map decrypt totals = map F (seq k (length totals)).
Proof.
  induction totals as [|t r IH]; intros k H; [done|].
  cbn [map length seq]. f_equal.
  - rewrite (H 0%nat t eq_refl). f_equal. lia.
  - apply IH. intros i t' Ht'. rewrite (H (S i) t' Ht'). f_equal. lia.
Qed.

(** C1, amended: in every reachable state and for every prediction id, the
    pool decrypts to the sum modulo 2^64 of the stakes of the bets placed on
    that prediction, and the total at index [i] to the sum modulo 2^64 of the
    stakes of those among them whose selection is [i].  When every bet on the
    prediction selected a valid index, the decrypted totals add up to the
    pool modulo 2^64; when moreover the stakes on it stay below 2^64, they
    add up to the pool exactly and every total is the exact sum. *)
Theorem ledger_sums (txs : list Tx) (pid : uint256) :
  let st := run verifyInput txs initial in
  let p := prediction st pid in
  let bets := placedBets verifyInput (receipts verifyInput txs initial) in
  decrypt (encryptedPool p) = staked pid bets mod 2 ^ 64
  /\ (forall i t, optionTotals p !! i = Some t ->
        decrypt t = staked_on pid (N.of_nat i) bets mod 2 ^ 64)
  /\ (selections_valid pid (length (options p)) bets = true ->
      sumN (map decrypt (optionTotals p)) mod 2 ^ 64 = decrypt (encryptedPool p))
  /\ (selections_valid pid (length (options p)) bets = true ->
      staked pid bets < 2 ^ 64 ->
      decrypt (encryptedPool p) = sumN (map decrypt (optionTotals p))
      /\ forall i t, optionTotals p !! i = Some t ->
           decrypt t = staked_on pid (N.of_nat i) bets).
Proof.
  intros st p bets. pose proof (Inv_reachable verifyInput txs) as HI.
  fold st bets in HI.
  pose proof (inv_pool _ _ _ HI pid) as Hpool. fold p in Hpool.
  pose proof (inv_totals _ _ _ HI pid) as Htot. fold p in Htot.
  destruct (lengths_reachable txs pid) as [Hlen _]. fold st p in Hlen.
  assert (Hmap : map decrypt (optionTotals p)
            = map (fun i => staked_on pid (N.of_nat i) bets mod 2 ^ 64)
                  (seq 0 (length (options p)))).
  { rewrite <- Hlen. apply map_decrypt_totals. intros i t Ht. by apply Htot. }
  split; [done|]. split; [done|]. split.
  - intros Hv. rewrite Hmap, sumN_mod, (staked_split _ _ _ Hv). by rewrite Hpool.
  - intros Hv Hsmall.
    assert (Hexact : forall i, staked_on pid i bets mod 2 ^ 64 = staked_on pid i bets).
    { intros i. apply N.mod_small. pose proof (staked_on_le pid i bets). lia. }
    split.
    + rewrite Hpool, N.mod_small by done. rewrite Hmap.
      erewrite map_ext; [|intros i; apply Hexact]. by rewrite (staked_split _ _ _ Hv).
    + intros i t Ht. by rewrite (Htot i t Ht), Hexact.
Qed.

End Properties.

(** * Scenarios *)

Example weather_scenario :
  map snd (receipts sampleVerifier [weather; aliceOnRainy] initial)
  = [Returned (RUint 1); Returned RUnit]
  /\ map decrypt (optionTotals (prediction (run sampleVerifier [weather; aliceOnRainy] initial) 1))
     = [0; 5]
  /\ decrypt (encryptedPool (prediction (run sampleVerifier [weather; aliceOnRainy] initial) 1)) = 5.
Proof. vm_compute. done. Qed.

Example match_scenario :
  map decrypt (optionTotals (prediction (run sampleVerifier matchDay initial) 1))
  = [2; 0; 3]
  /\ decrypt (encryptedPool (prediction (run sampleVerifier matchDay initial) 1)) = 5
  /\ getPredictionCount (run sampleVerifier matchDay initial)
     = Ok 1 (run sampleVerifier matchDay initial).
Proof. vm_compute. done. Qed.

Example played_bets :
  placedBets sampleVerifier (receipts sampleVerifier [weather; aliceOnRainy; bobOnSunny] initial)
  = [mkPlaced 1 alice 5 1; mkPlaced 1 bob 7 0].
Proof. vm_compute. reflexivity. Qed.

Example played_scenario :
  map decrypt (optionTotals (prediction played 1)) = [7; 5]
  /\ decrypt (encryptedPool (prediction played 1)) = 12
  /\ balance played = 12
  /\ getPredictionCount played = Ok 1 played.
Proof. vm_compute. done. Qed.

(** C1 as stated fails twice over.  A bet whose encrypted selection is 7 on
    a prediction with two options raises the pool and no total; and two
    stakes of 2^63 on option 0 make its total wrap around to 0. *)
Lemma ledger_sums_counterexample :
  (let st := run sampleVerifier [weather; aliceOnNothing] initial in
   decrypt (encryptedPool (prediction st 1))
   <> sumN (map decrypt (optionTotals (prediction st 1))))
  /\ (let st := run sampleVerifier [weather; aliceHalf; bobHalf] initial in
      let bets := placedBets sampleVerifier
                    (receipts sampleVerifier [weather; aliceHalf; bobHalf] initial) in
      exists t, optionTotals (prediction st 1) !! 0%nat = Some t
                /\ decrypt t <> staked_on 1 0 bets).
Proof.
  split.
  - vm_compute. discriminate.
  - eexists. split; [vm_compute; reflexivity|]. vm_compute. discriminate.
Qed.

(** After the three sample transactions the totals add up to the pool and
    every total is the exact sum of the stakes on its option. *)
Lemma ledger_sums_witness :
  decrypt (encryptedPool (prediction played 1))
  = sumN (map decrypt (optionTotals (prediction played 1)))
  /\ forall i t, optionTotals (prediction played 1) !! i = Some t ->
       decrypt t
       = staked_on 1 (N.of_nat i)
           (placedBets sampleVerifier
              (receipts sampleVerifier [weather; aliceOnRainy; bobOnSunny] initial)).
Proof.
  destruct (ledger_sums sampleVerifier [weather; aliceOnRainy; bobOnSunny] 1)
    as (_ & _ & _ & H).
  apply H; vm_compute; reflexivity.
Defined.

Example carol_bets_succeed :
  (exists st1, placeEncryptedBet sampleVerifier carol 9 1 80 [0] played = Ok tt st1)
  /\ (exists st2, placeEncryptedBet sampleVerifier carol 9 1 81 [1] played = Ok tt st2).
Proof. split; eexists; vm_compute; reflexivity. Qed.

(** Carol betting on option 0 and Carol betting on option 1. *)
Lemma bet_is_oblivious_witness :
  sampleVerifier 80 [0] = Some 0
  /\ sampleVerifier 81 [1] = Some 1
  /\ match placeEncryptedBet sampleVerifier carol 9 1 80 [0] played,
           placeEncryptedBet sampleVerifier carol 9 1 81 [1] played with
     | Ok _ st1, Ok _ st2 =>
         let old := optionTotals (prediction played 1) in
         let amt := HEncode EUint64 (9 mod 2 ^ 64) in
         let zero := HEncode EUint64 0 in
         map op_kind (fheLog st1) = map op_kind (fheLog st2)
         /\ map op_kind (fheLog st1)
            = map op_kind (fheLog played) ++ bet_kinds carol (length old)
         /\ forall i t, old !! i = Some t ->
              optionTotals (prediction st1 1) !! i
              = Some (new_total (HIngest EUint8 80 0) amt zero i t)
              /\ optionTotals (prediction st2 1) !! i
                 = Some (new_total (HIngest EUint8 81 1) amt zero i t)
     | Revert e1, Revert e2 => e1 = e2
     | _, _ => False
     end.
Proof.
  split; [reflexivity|]. split; [reflexivity|].
  exact (bet_is_oblivious sampleVerifier carol 9 1 played 80 81 [0] [1] 0 1
           eq_refl eq_refl).
Defined.

(** C3 as stated fails: Alice has a bet on prediction 1, and her second
    call, with no stake attached, is rejected with [InvalidBetAmount]. *)
Lemma second_bet_counterexample :
  In (mkPlaced 1 alice 5 1)
     (placedBets sampleVerifier
        (receipts sampleVerifier [weather; aliceOnRainy; bobOnSunny] initial))
  /\ fst (execute sampleVerifier (mkTx alice 0 200 (PlaceEncryptedBet 1 77 [1])) played)
     = Reverted InvalidBetAmount
  /\ fst (execute sampleVerifier (mkTx alice 0 200 (PlaceEncryptedBet 1 77 [1])) played)
     <> Reverted BetAlreadyPlaced.
Proof.
  split; [rewrite played_bets; by left|]. split; [vm_compute; reflexivity|].
  vm_compute. discriminate.
Qed.

(** Alice's second call with a stake of 3 is rejected with
    [BetAlreadyPlaced]. *)
Lemma second_bet_rejected_witness :
  In (mkPlaced 1 alice 5 1)
     (placedBets sampleVerifier
        (receipts sampleVerifier [weather; aliceOnRainy; bobOnSunny] initial))
  /\ execute sampleVerifier (mkTx alice 3 200 (PlaceEncryptedBet 1 77 [0])) played
     = (Reverted BetAlreadyPlaced, played).
Proof.
  assert (H : In (mkPlaced 1 alice 5 1)
                (placedBets sampleVerifier
                   (receipts sampleVerifier [weather; aliceOnRainy; bobOnSunny] initial)))
    by (rewrite played_bets; left; reflexivity).
  split; [exact H|].
  exact (second_bet_rejected sampleVerifier [weather; aliceOnRainy; bobOnSunny]
           (mkPlaced 1 alice 5 1) 3 200 77 [0] H).
Defined.

(** C4 as stated fails: the checks are made in order, and the first one
    that fails names the error.  A single empty option is an empty option,
    yet the call is rejected with [InvalidOptionsCount]; a single option
    under an empty name is too few options, yet the call is rejected with
    [EmptyName]; and five options of which one is empty are rejected with
    [InvalidOptionsCount]. *)
Lemma createPrediction_validation_counterexample :
  (In "" [""]
   /\ fst (execute sampleVerifier (mkTx alice 0 100 (CreatePrediction "X" [""])) played)
      = Reverted InvalidOptionsCount
   /\ fst (execute sampleVerifier (mkTx alice 0 100 (CreatePrediction "X" [""])) played)
      <> Reverted EmptyOption)
  /\ ((length ["OnlyOne"] < 2)%nat
      /\ fst (execute sampleVerifier
                (mkTx alice 0 100 (CreatePrediction "" ["OnlyOne"])) played)
         = Reverted EmptyName
      /\ fst (execute sampleVerifier
                (mkTx alice 0 100 (CreatePrediction "" ["OnlyOne"])) played)
         <> Reverted InvalidOptionsCount)
  /\ (In "" ["A"; "B"; ""; "D"; "E"]
      /\ fst (execute sampleVerifier
                (mkTx alice 0 100 (CreatePrediction "Full" ["A"; "B"; ""; "D"; "E"]))
                played)
         = Reverted InvalidOptionsCount).
Proof.
  split; [|split].
  - split; [by left|]. split; [vm_compute; reflexivity|vm_compute; discriminate].
  - split; [cbn; lia|]. split; [vm_compute; reflexivity|vm_compute; discriminate].
  - split; [cbn; tauto|]. vm_compute. reflexivity.
Qed.

(** The rejected creations of the test suite, and an empty option. *)
Lemma createPrediction_validation_witness :
  execute sampleVerifier (mkTx alice 0 100 (CreatePrediction "" ["Yes"; "No"])) played
  = (Reverted EmptyName, played)
  /\ execute sampleVerifier (mkTx alice 0 100 (CreatePrediction "Invalid" ["OnlyOne"])) played
     = (Reverted InvalidOptionsCount, played)
  /\ execute sampleVerifier
       (mkTx alice 0 100 (CreatePrediction "Full" ["A"; "B"; "C"; "D"; "E"])) played
     = (Reverted InvalidOptionsCount, played)
  /\ execute sampleVerifier (mkTx alice 0 100 (CreatePrediction "Blank" ["A"; ""])) played
     = (Reverted EmptyOption, played)
  /\ getPredictionCount
       (snd (execute sampleVerifier (mkTx alice 0 100 (CreatePrediction "Blank" ["A"; ""]))
                     played))
     = getPredictionCount played.
Proof.
  split; [|split; [|split; [|split]]].
  - apply (createPrediction_validation sampleVerifier alice 100 "" ["Yes"; "No"] played).
    reflexivity.
  - apply (createPrediction_validation sampleVerifier alice 100 "Invalid" ["OnlyOne"] played).
    + discriminate.
    + left. cbn. lia.
  - apply (createPrediction_validation sampleVerifier alice 100 "Full"
             ["A"; "B"; "C"; "D"; "E"] played).
    + discriminate.
    + right. cbn. lia.
  - apply (createPrediction_validation sampleVerifier alice 100 "Blank" ["A"; ""] played).
    + discriminate.
    + cbn. lia.
    + cbn. right. left. reflexivity.
  - apply (createPrediction_validation sampleVerifier alice 100 "Blank" ["A"; ""] played).
    right. right. cbn. right. left. reflexivity.
Defined.

(** A stake of zero and a stake of 2^64 on prediction 1. *)
Lemma bet_amount_validation_witness :
  exists_ (prediction played 1) = true
  /\ execute sampleVerifier (mkTx carol 0 200 (PlaceEncryptedBet 1 80 [0])) played
     = (Reverted InvalidBetAmount, played)
  /\ execute sampleVerifier (mkTx carol (2 ^ 64) 200 (PlaceEncryptedBet 1 80 [0])) played
     = (Reverted InvalidBetAmount, played).
Proof.
  assert (H : exists_ (prediction played 1) = true) by (vm_compute; reflexivity).
  split; [exact H|]. split.
  - apply (bet_amount_validation sampleVerifier [weather; aliceOnRainy; bobOnSunny]
             carol 0 200 1 80 [0] H).
    left. reflexivity.
  - apply (bet_amount_validation sampleVerifier [weather; aliceOnRainy; bobOnSunny]
             carol (2 ^ 64) 200 1 80 [0] H).
    right. vm_compute. reflexivity.
Defined.

(** Prediction 2 does not exist; Carol has no bet on prediction 1; Alice
    staked 5 on option 1. *)
Lemma getUserBet_cases_witness :
  getUserBet 2 alice played = Revert InvalidPrediction
  /\ getUserBet 1 carol played = Ok (HNull, HNull, false) played
  /\ (exists a s, getUserBet 1 alice played = Ok (a, s, true) played
                  /\ decrypt a = 5 /\ decrypt s = 1).
Proof.
  destruct (getUserBet_cases sampleVerifier [weather; aliceOnRainy; bobOnSunny] 2 alice)
    as (H1 & _ & _).
  destruct (getUserBet_cases sampleVerifier [weather; aliceOnRainy; bobOnSunny] 1 carol)
    as (_ & H2 & _).
  destruct (getUserBet_cases sampleVerifier [weather; aliceOnRainy; bobOnSunny] 1 alice)
    as (_ & _ & H3).
  split; [|split].
  - apply H1. vm_compute. reflexivity.
  - apply H2; [vm_compute; reflexivity|].
    intros pb Hin [_ Hby]. rewrite played_bets in Hin.
    destruct Hin as [<-|[<-|[]]]; discriminate Hby.
  - destruct (H3 (mkPlaced 1 alice 5 1)) as (Hg & Ha & Hs);
      [rewrite played_bets; left; reflexivity|reflexivity|reflexivity|].
    eexists _, _. split; [exact Hg|]. split; [exact Ha|exact Hs].
Defined.

(** The one prediction created is the one listed. *)
Lemma listPredictions_creation_order_witness :
  listPredictions played
  = Ok [mkSummary 1 "Weather" ["Sunny"; "Rainy"] alice 100] played
  /\ exists_ (prediction played 1) = true.
Proof.
  destruct (listPredictions_creation_order sampleVerifier [weather; aliceOnRainy; bobOnSunny])
    as (H1 & H2).
  split; [exact H1|]. apply H2. vm_compute. left. reflexivity.
Defined.

(** Listing the predictions moves no value; the contract holds 5 + 7. *)
Lemma stakes_stay_locked_witness :
  balance (step sampleVerifier played (mkTx alice 0 300 ListPredictions)) = balance played
  /\ balance played = 12.
Proof.
  destruct (stakes_stay_locked sampleVerifier [weather; aliceOnRainy; bobOnSunny]
              (mkTx alice 0 300 ListPredictions)) as (H1 & _ & H3 & _).
  split; [apply H3; reflexivity|]. exact H1.
Defined.


(** * Events and grants of reachable states *)

Lemma in_concat_replicate {A} (x : A) (n : nat) (l : list A) :
  In x (concat (replicate n l)) -> In x l.
Proof.
  induction n as [|n IH]; cbn [replicate concat]; [done|].
  intros [H|H]%in_app_or; [done|by apply IH].
Qed.

Lemma in_replicate {A} (x y : A) (n : nat) : In y (replicate n x) -> y = x.
Proof. induction n as [|n IH]; cbn [replicate In]; [done|]. intros [<-|H]; auto. Qed.

Lemma in_zero_ops who op :
  In op (zero_ops who) ->
  op = OpEncode EUint64 0
  \/ exists p, op = OpGrant (HEncode EUint64 0) p.
Proof.
  unfold zero_ops. cbn [In]. intros [<-|[<-|[<-|[<-|[]]]]]; eauto.
Qed.

Lemma zero_ops_granted who log :
  granted_public (log ++ zero_ops who) (HEncode EUint64 0).
Proof.
  split; apply in_or_app; right; unfold zero_ops; cbn [In]; auto.
Qed.

Lemma granted_public_app log more h :
  granted_public log h -> granted_public (log ++ more) h.
Proof. intros [? ?]. split; apply in_or_app; by left. Qed.

Lemma granted_to_app log more who h :
  granted_to log who h -> granted_to (log ++ more) who h.
Proof. intros [? ?]. split; apply in_or_app; by left. Qed.

(** The grants issued by the aggregation loop are on the totals it stores. *)
Lemma in_aggregate_ops_grant who sel amt zero totals : forall k h p,
  In (OpGrant h p) (aggregate_ops who sel amt zero k totals) ->
  exists i t, h = new_total sel amt zero i t.
Proof.
  induction totals as [|t r IH]; intros k h p; cbn [aggregate_ops]; [done|].
  intros [H|H]%in_app_or; [|by eapply IH].
  unfold option_ops in H. cbn [In] in H.
  destruct H as [H|[H|[H|[H|[H|[H|[H|[]]]]]]]]; try discriminate;
    injection H as <- _; by exists k, t.
Qed.

Lemma aggregate_totals_granted who sel amt zero totals : forall k t',
  In t' (aggregate_totals sel amt zero k totals) ->
  granted_public (aggregate_ops who sel amt zero k totals) t'.
Proof.
  induction totals as [|t r IH]; intros k t'; cbn [aggregate_totals aggregate_ops]; [done|].
  intros [<-|H].
  - split; apply in_or_app; left; unfold option_ops, new_total; cbn [In]; auto 10.
  - destruct (IH _ _ H). split; apply in_or_app; by right.
Qed.

Lemma expected_events_app verifyInput log log' :
  expected_events verifyInput (log ++ log')
  = expected_events verifyInput log ++ expected_events verifyInput log'.
Proof. unfold expected_events. by rewrite flat_map_app. Qed.

Lemma expected_events_one verifyInput r :
  expected_events verifyInput [r] = expected_event verifyInput r.
Proof. unfold expected_events. cbn [flat_map]. by rewrite app_nil_r. Qed.

Lemma expected_event_reverted verifyInput tx e :
  expected_event verifyInput (tx, Reverted e) = [].
Proof. unfold expected_event. cbn [fst snd]. by destruct (call tx). Qed.

Lemma expected_event_view verifyInput tx o :
  is_view (call tx) = true -> expected_event verifyInput (tx, o) = [].
Proof. unfold expected_event. cbn [fst snd]. by destruct (call tx). Qed.

Section Grants.

Variable verifyInput : externalEuint8 -> bytes -> option N.

Lemma Inv2_initial : Inv2 verifyInput [] initial.
Proof. split; try done. Qed.

Lemma Inv2_ghost log log' st :
  expected_events verifyInput log' = expected_events verifyInput log ->
  Inv2 verifyInput log st -> Inv2 verifyInput log' st.
Proof. intros He [H1 H2 H3 H4 H5 H6 H7]. split; rewrite ?He; done. Qed.

Lemma Inv2_created log st tx nm opts :
  Inv verifyInput log st ->
  Inv2 verifyInput log st ->
  call tx = CreatePrediction nm opts ->
  Inv2 verifyInput (log ++ [(tx, Returned (RUint (_nextPredictionId st)))])
       (created (msg_sender tx) (block_timestamp tx) nm opts st).
Proof.
  intros HI HJ Hcall.
  pose proof (Inv_fresh_zero _ _ _ _ HI (N.le_refl _)) as Hzero.
  pose proof (inv_next _ _ _ HI) as Hnext.
  set (who := msg_sender tx).
  set (new_ops := zero_ops who ++ concat (replicate (length opts) (zero_ops who))).
  assert (Hnew : forall op, In op new_ops ->
            op = OpEncode EUint64 0 \/ exists p, op = OpGrant (HEncode EUint64 0) p).
  { intros op [H|H]%in_app_or; [by eapply in_zero_ops|].
    apply in_concat_replicate in H. by eapply in_zero_ops. }
  split.
  - intros pid p. cbn [created _predictions].
    destruct (N.eq_dec pid (_nextPredictionId st)) as [->|Hne].
    + intros _. lia.
    + rewrite lookup_insert_ne by done. apply (inv2_positive _ _ _ HJ).
  - cbn [created eventLog]. rewrite expected_events_app, expected_events_one.
    rewrite (inv2_events _ _ _ HJ). unfold expected_event. cbn [fst snd].
    by rewrite Hcall.
  - intros h. cbn [created fheLog]. fold who new_ops.
    intros [H|H]%in_app_or; [by apply (inv2_public _ _ _ HJ)|].
    destruct (Hnew _ H) as [E|[p E]]; [discriminate|]. injection E as -> _. by left.
  - intros pid p. cbn [created _predictions fheLog]. fold who new_ops.
    destruct (N.eq_dec pid (_nextPredictionId st)) as [->|Hne].
    + rewrite lookup_insert_eq, Hzero. intros [= <-].
      cbn [encryptedPool optionTotals zeroPrediction app].
      assert (Hz : granted_public (fheLog st ++ new_ops) (HEncode EUint64 0)).
      { unfold new_ops. rewrite app_assoc. apply granted_public_app, zero_ops_granted. }
      split; [done|]. intros t Ht. apply in_replicate in Ht. by subst.
    + rewrite lookup_insert_ne by done. intros Hp.
      destruct (inv2_totals _ _ _ HJ _ _ Hp) as [Hpool Htot].
      split; [by apply granted_public_app|].
      intros t Ht. by apply granted_public_app, Htot.
  - intros pid u b Hb. cbn [created _bets fheLog] in *.
    destruct (inv2_bets _ _ _ HJ _ _ _ Hb) as (Hform & Ha & Hs).
    split; [done|]. split; by apply granted_to_app.
  - intros ty raw v w. cbn [created fheLog]. fold who new_ops.
    intros [H|H]%in_app_or; [by apply (inv2_selections _ _ _ HJ)|].
    destruct (Hnew _ H) as [E|[p E]]; discriminate.
  - intros pid u a s c. cbn [created eventLog].
    intros [H|[H|[]]]%in_app_or; [|discriminate].
    by apply (inv2_placed _ _ _ HJ).
Qed.

Lemma in_bet_ops_grant who value raw v p h q :
  In (OpGrant h q) (bet_ops who value raw v p) ->
  (h = HIngest EUint8 raw v /\ (q = Self \/ q = Account who))
  \/ (h = HEncode EUint64 (value mod 2 ^ 64) /\ (q = Self \/ q = Account who))
  \/ (h = HEncode EUint64 0 /\ q = Self)
  \/ exists a b, h = HAdd a b.
Proof.
  unfold bet_ops. cbv zeta. intros [H|H]%in_app_or.
  - cbn [In] in H.
    destruct H as [H|[H|[H|[H|[H|[H|[H|[H|[H|[H|[H|[H|[]]]]]]]]]]]]];
      try discriminate; injection H as <- <-; eauto 10.
  - apply in_aggregate_ops_grant in H as (i & t & ->).
    right. right. right. unfold new_total. eauto.
Qed.

Lemma bet_ops_granted who value raw v p log :
  granted_to (log ++ bet_ops who value raw v p) who (HIngest EUint8 raw v)
  /\ granted_to (log ++ bet_ops who value raw v p) who
       (HEncode EUint64 (value mod 2 ^ 64))
  /\ granted_public (log ++ bet_ops who value raw v p)
       (HAdd (encryptedPool p) (HEncode EUint64 (value mod 2 ^ 64))).
Proof.
  unfold granted_to, granted_public, bet_ops. cbv zeta.
  repeat split; apply in_or_app; right; apply in_or_app; left; cbn [In]; auto 20.
Qed.

Lemma Inv2_placed log st tx pid raw proof v :
  Inv verifyInput log st ->
  Inv2 verifyInput log st ->
  call tx = PlaceEncryptedBet pid raw proof ->
  exists_ (prediction st pid) = true ->
  0 < msg_value tx <= uint64_max ->
  betExists (bet st pid (msg_sender tx)) = false ->
  verifyInput raw proof = Some v ->
  Inv2 verifyInput (log ++ [(tx, Returned RUnit)])
       (placed (msg_sender tx) (msg_value tx) pid raw v (credit (msg_value tx) st)).
Proof.
  intros HI HJ Hcall Hex Hval Hnobet Hver.
  set (who := msg_sender tx). set (value := msg_value tx).
  set (st0 := credit value st).
  assert (Hpred : forall q, prediction st0 q = prediction st q) by reflexivity.
  assert (Hbet : forall q u, bet st0 q u = bet st q u) by reflexivity.
  pose proof (exists_lookup _ _ Hex) as Hlook.
  set (p := prediction st pid) in *.
  set (sel := HIngest EUint8 raw v).
  set (amt := HEncode EUint64 (value mod 2 ^ 64)).
  destruct (bet_ops_granted who value raw v p (fheLog st)) as (Gsel & Gamt & Gpool).
  fold sel amt in Gsel, Gamt, Gpool.
  assert (Hsmall : value mod 2 ^ 64 = value) by (apply mod_small_64, Hval).
  assert (Hkeep : forall q u, betExists (bet st q u) = true ->
            bet (placed who value pid raw v st0) q u = bet st q u).
  { intros q u Hq. rewrite bet_placed_other, Hbet; [done|].
    intros [= -> ->]. fold who in Hnobet. congruence. }
  split.
  - intros q p'. cbn [placed _predictions st0 credit].
    destruct (N.eq_dec q pid) as [->|Hne].
    + intros _. by apply (inv2_positive _ _ _ HJ pid p).
    + rewrite lookup_insert_ne by done. apply (inv2_positive _ _ _ HJ).
  - cbn [placed eventLog st0 credit].
    rewrite expected_events_app, expected_events_one, (inv2_events _ _ _ HJ).
    unfold expected_event. cbn [fst snd]. by rewrite Hcall, Hver.
  - intros h. cbn [placed fheLog st0 credit]. rewrite Hpred. fold p.
    intros [H|H]%in_app_or; [by apply (inv2_public _ _ _ HJ)|].
    apply in_bet_ops_grant in H as [[_ [?|?]]|[[_ [?|?]]|[[_ ?]|?]]];
      try discriminate. by right.
  - intros q p'. cbn [placed _predictions fheLog st0 credit]. rewrite Hpred. fold p.
    destruct (N.eq_dec q pid) as [->|Hne].
    + rewrite lookup_insert_eq. intros [= <-]. cbn [encryptedPool optionTotals].
      split; [exact Gpool|]. intros t Ht.
      apply (aggregate_totals_granted who) in Ht. unfold bet_ops. cbv zeta.
      destruct Ht. split; apply in_or_app; right; apply in_or_app; by right.
    + rewrite lookup_insert_ne by done. intros Hq.
      destruct (inv2_totals _ _ _ HJ _ _ Hq) as [H1 H2].
      split; [by apply granted_public_app|]. intros t Ht.
      by apply granted_public_app, H2.
  - intros q u b. cbn [placed _bets fheLog st0 credit]. rewrite Hpred. fold p.
    destruct (decide ((q, u) = (pid, who))) as [[= -> ->]|Hne].
    + rewrite lookup_insert_eq. intros [= <-].
      cbn [encryptedAmount encryptedSelection]. split; [|done].
      exists raw, v, (value mod 2 ^ 64). split; [done|]. rewrite Hsmall.
      subst value. lia.
    + rewrite lookup_insert_ne by done. intros Hb.
      destruct (inv2_bets _ _ _ HJ _ _ _ Hb) as (Hform & Ha & Hs).
      split; [done|]. split; by apply granted_to_app.
  - intros ty raw' v' w. cbn [placed fheLog st0 credit]. rewrite Hpred. fold p.
    intros [H|H]%in_app_or.
    + destruct (inv2_selections _ _ _ HJ _ _ _ _ H) as (q & Hq & Hs).
      exists q. by rewrite (Hkeep q w Hq).
    + apply in_bet_ops_grant in H as [[E [?|Hq]]|[[? _]|[[? _]|(? & ? & ?)]]];
        try discriminate.
      injection Hq as <-. exists pid. rewrite bet_placed_same.
      cbn [betExists encryptedSelection]. done.
  - intros q u a s c. cbn [placed eventLog st0 credit].
    intros [H|[H|[]]]%in_app_or.
    + destruct (inv2_placed _ _ _ HJ _ _ _ _ _ H) as [Hb Hd].
      rewrite Hkeep; [done|]. by rewrite Hb.
    + injection H as <- <- <- <- <-. rewrite bet_placed_same. split; [done|].
      cbn [decrypt bitwidth]. fold value. by rewrite Hsmall, Hsmall.
Qed.

Lemma Inv2_step log st tx :
  Inv verifyInput log st ->
  Inv2 verifyInput log st ->
  Inv2 verifyInput (log ++ [(tx, fst (execute verifyInput tx st))])
       (step verifyInput st tx).
Proof.
  intros HI HJ. unfold step.
  destruct (execute_transition verifyInput tx st)
    as [nm opts Hcall _ _ Hlen _ _ | pid raw proof v Hcall Hex _ Hval Hnobet Hver
       | e | v Hview].
  - by apply Inv2_created.
  - by eapply Inv2_placed.
  - eapply Inv2_ghost; [|exact HJ].
    by rewrite expected_events_app, expected_events_one, expected_event_reverted,
      app_nil_r.
  - eapply Inv2_ghost; [|exact HJ].
    by rewrite expected_events_app, expected_events_one, expected_event_view,
      app_nil_r.
Qed.

Lemma Inv2_run txs : forall log st,
  Inv verifyInput log st ->
  Inv2 verifyInput log st ->
  Inv2 verifyInput (log ++ receipts verifyInput txs st) (run verifyInput txs st).
Proof.
  induction txs as [|tx txs IH]; intros log st HI HJ.
  - cbn [receipts run fold_left]. by rewrite app_nil_r.
  - cbn [receipts]. unfold run. cbn [fold_left].
    change (fold_left (step verifyInput) txs ?s) with (run verifyInput txs s).
    rewrite (cons_middle _ log), app_assoc.
    apply IH; [by apply Inv_step | by apply Inv2_step].
Qed.

Lemma Inv2_reachable txs :
  Inv2 verifyInput (receipts verifyInput txs initial) (run verifyInput txs initial).
Proof. apply (Inv2_run txs [] initial (Inv_initial _) Inv2_initial). Qed.

End Grants.

(** * Which predictions exist *)

Lemma lookup_map {A B} (f : A -> B) (l : list A) (k : nat) :
  map f l !! k = f <$> l !! k.
Proof.
  revert k. induction l as [|x l IH]; intros [|k]; cbn; auto.
Qed.

Section Reads.

Variable verifyInput : externalEuint8 -> bytes -> option N.

Lemma count_reachable (txs : list Tx) :
  let st := run verifyInput txs initial in
  _nextPredictionId st = N.of_nat (length (_predictionIds st)) + 1
  /\ _predictionIds st = map N.of_nat (seq 1 (length (_predictionIds st))).
Proof.
  intros st. pose proof (Inv_reachable verifyInput txs) as HI. fold st in HI.
  rewrite (inv_ids _ _ _ HI), length_map. split.
  - apply (inv_next _ _ _ HI).
  - apply (inv_seq _ _ _ HI).
Qed.

Lemma exists_range (txs : list Tx) (id : uint256) :
  let st := run verifyInput txs initial in
  exists_ (prediction st id) = true
  <-> 1 <= id <= N.of_nat (length (_predictionIds st)).
Proof.
  intros st. pose proof (Inv_reachable verifyInput txs) as HI.
  pose proof (Inv2_reachable verifyInput txs) as HJ. fold st in HI, HJ.
  destruct (count_reachable txs) as [Hnext Hids]. fold st in Hnext, Hids.
  split.
  - intros Hex. apply exists_lookup in Hex. split.
    + apply (inv2_positive _ _ _ HJ _ _ Hex).
    + destruct (N.le_gt_cases id (N.of_nat (length (_predictionIds st))))
        as [?|Hgt]; [done|].
      rewrite (inv_fresh _ _ _ HI id) in Hex by lia. discriminate.
  - intros Hid. apply (listed_ids_exist verifyInput txs). fold st.
    rewrite Hids. apply in_map_iff. exists (N.to_nat id). split; [lia|].
    apply in_seq. lia.
Qed.

Lemma missing_range (txs : list Tx) (id : uint256) :
  let st := run verifyInput txs initial in
  exists_ (prediction st id) = false
  <-> id = 0 \/ N.of_nat (length (_predictionIds st)) < id.
Proof.
  intros st. pose proof (exists_range txs id) as H. cbv zeta in H. fold st in H.
  destruct (exists_ (prediction st id)).
  - split; [discriminate|]. intros Hid. assert (true = true) as E by done.
    apply H in E. lia.
  - split; [|done]. intros _.
    destruct (N.eq_dec id 0) as [?|?]; [by left|]. right.
    destruct (N.lt_ge_cases (N.of_nat (length (_predictionIds st))) id); [done|].
    assert (false = true) as E by (apply H; lia). discriminate.
Qed.

(** X2: in every reachable state the prediction ids that exist are exactly
    1, ..., [getPredictionCount]; id 0 and every id above the count denote no
    prediction. *)
Theorem prediction_exists_iff (txs : list Tx) (id : uint256) :
  let st := run verifyInput txs initial in
  exists_ (prediction st id) = true
  <-> 1 <= id <= N.of_nat (length (_predictionIds st)).
Proof. exact (exists_range txs id). Qed.

(** * The single-prediction accessors *)

Lemma listing_lookup (txs : list Tx) (k : nat) (s : PredictionSummary) :
  let st := run verifyInput txs initial in
  map (slot_summary st) (_predictionIds st) !! k = Some s ->
  s = slot_summary st (N.of_nat (S k))
  /\ exists_ (prediction st (N.of_nat (S k))) = true
  /\ summaryId s = N.of_nat (S k).
Proof.
  intros st. destruct (count_reachable txs) as [_ Hids]. fold st in Hids.
  rewrite lookup_map. destruct (_predictionIds st !! k) as [id|] eqn:Hk; [|done].
  cbn. intros [= <-].
  assert (id = N.of_nat (S k)) as ->.
  { rewrite Hids, lookup_map in Hk.
    destruct (seq 1 _ !! k) as [j|] eqn:Hj; [|done].
    apply lookup_seq in Hj as [-> _]. cbn in Hk. by injection Hk as <-. }
  assert (Hex : exists_ (prediction st (N.of_nat (S k))) = true).
  { apply (exists_range txs). fold st. apply lookup_lt_Some in Hk. lia. }
  split; [done|]. split; [done|]. unfold slot_summary. by rewrite Hex.
Qed.

(** X3: in every reachable state [getPredictionMetadata] fails with
    [InvalidPrediction] exactly for id 0 and ids above the count, and for
    every other id returns, leaving the state as it is, the entry that
    [listPredictions] has at position id - 1, whose id field is that id. *)
Theorem metadata_matches_listing (txs : list Tx) :
  let st := run verifyInput txs initial in
  (forall id,
      getPredictionMetadata id st = Revert InvalidPrediction
      <-> id = 0 \/ N.of_nat (length (_predictionIds st)) < id)
  /\ (forall l k s,
        listPredictions st = Ok l st ->
        l !! k = Some s ->
        getPredictionMetadata (N.of_nat (S k)) st = Ok s st
        /\ summaryId s = N.of_nat (S k)).
Proof.
  intros st. split.
  - intros id. rewrite getPredictionMetadata_run.
    pose proof (missing_range txs id) as Hm. cbv zeta in Hm. fold st in Hm.
    rewrite <- Hm.
    destruct (exists_ (prediction st id)); split; done.
  - intros l k s. rewrite listPredictions_run. intros [= <-] Hk.
    destruct (listing_lookup txs k s Hk) as (Hs & Hex & Hid). fold st in Hs, Hex.
    rewrite getPredictionMetadata_run, Hex. by subst s.
Qed.

(** X4: in every reachable state [getEncryptedTotals] fails with
    [InvalidPrediction] exactly for id 0 and ids above the count; for every
    other id it returns, leaving the state as it is, the stored pool handle
    and one total handle per option that [getPredictionMetadata] reports. *)
Theorem totals_match_options (txs : list Tx) (id : uint256) :
  let st := run verifyInput txs initial in
  (getEncryptedTotals id st = Revert InvalidPrediction
   <-> id = 0 \/ N.of_nat (length (_predictionIds st)) < id)
  /\ (forall s,
        getPredictionMetadata id st = Ok s st ->
        getEncryptedTotals id st
        = Ok (optionTotals (prediction st id), encryptedPool (prediction st id)) st
        /\ length (optionTotals (prediction st id)) = length (summaryOptions s)
        /\ (2 <= length (summaryOptions s) <= 4)%nat).
Proof.
  intros st. split.
  - rewrite getEncryptedTotals_run.
    pose proof (missing_range txs id) as Hm. cbv zeta in Hm. fold st in Hm.
    rewrite <- Hm.
    destruct (exists_ (prediction st id)); split; done.
  - intros s. rewrite getPredictionMetadata_run, getEncryptedTotals_run.
    destruct (exists_ (prediction st id)) eqn:Hex; [|done].
    intros [= <-]. split; [done|].
    destruct (lengths_reachable verifyInput txs id) as [Hlen Hopts]. fold st in Hlen, Hopts.
    unfold slot_summary. rewrite Hex. cbn [summaryOptions]. split; [done|].
    by apply Hopts.
Qed.

(** * Every way a bet can end *)

(** X5: in every reachable state the outcome of [placeEncryptedBet] is decided
    by four checks in this order: the id is 0 or above the count
    ([InvalidPrediction]); the stake is zero or above the largest 64-bit
    value ([InvalidBetAmount]); the caller already has a bet on the
    prediction ([BetAlreadyPlaced]); the input proof is rejected
    ([ProofInvalid]).  Otherwise the bet is placed.  The guard on an empty
    list of totals never fires, and no array access is out of bounds. *)
Theorem bet_outcome (txs : list Tx) (who : address) (value pid : uint256)
    (raw : externalEuint8) (proof : bytes) :
  let st := run verifyInput txs initial in
  placeEncryptedBet verifyInput who value pid raw proof st
  = (if (pid =? 0) || (N.of_nat (length (_predictionIds st)) <? pid)
     then Revert InvalidPrediction
     else if (value =? 0) || (uint64_max <? value) then Revert InvalidBetAmount
     else if betExists (bet st pid who) then Revert BetAlreadyPlaced
     else match verifyInput raw proof with
          | Some v => Ok tt (placed who value pid raw v st)
          | None => Revert ProofInvalid
          end)
  /\ placeEncryptedBet verifyInput who value pid raw proof st
     <> Revert InvalidOptionsCount
  /\ forall code, placeEncryptedBet verifyInput who value pid raw proof st
                  <> Revert (Panic code).
Proof.
  intros st.
  assert (Heq : placeEncryptedBet verifyInput who value pid raw proof st
    = (if (pid =? 0) || (N.of_nat (length (_predictionIds st)) <? pid)
       then Revert InvalidPrediction
       else if (value =? 0) || (uint64_max <? value) then Revert InvalidBetAmount
       else if betExists (bet st pid who) then Revert BetAlreadyPlaced
       else match verifyInput raw proof with
            | Some v => Ok tt (placed who value pid raw v st)
            | None => Revert ProofInvalid
            end)).
  { rewrite placeEncryptedBet_run. cbv zeta.
    pose proof (missing_range txs pid) as Hmiss. cbv zeta in Hmiss. fold st in Hmiss.
    destruct (lengths_reachable verifyInput txs pid) as [Hlen Hopts].
    fold st in Hlen, Hopts.
    destruct (exists_ (prediction st pid)) eqn:Hex; cbn [negb].
    - replace ((pid =? 0) || (N.of_nat (length (_predictionIds st)) <? pid))
        with false.
      + specialize (Hopts eq_refl).
        destruct (length (optionTotals (prediction st pid))) eqn:E; [lia|done].
      + symmetry. apply orb_false_iff. rewrite N.eqb_neq, N.ltb_ge.
        destruct (N.eq_dec pid 0) as [E|E].
        * assert (true = false) by (apply Hmiss; by left). discriminate.
        * split; [done|].
          destruct (N.le_gt_cases pid (N.of_nat (length (_predictionIds st))));
            [done|].
          assert (true = false) by (apply Hmiss; by right). discriminate.
    - replace ((pid =? 0) || (N.of_nat (length (_predictionIds st)) <? pid))
        with true; [done|].
      symmetry. apply orb_true_iff. rewrite N.eqb_eq, N.ltb_lt. by apply Hmiss. }
  split; [exact Heq|]. rewrite Heq.
  split; [|intros code];
    (destruct (_ || _); [discriminate|]);
    (destruct (_ || _); [discriminate|]);
    (destruct (betExists _); [discriminate|]);
    destruct (verifyInput raw proof); discriminate.
Qed.

(** * What a creation leaves behind *)

Lemma no_bet_on_missing (txs : list Tx) (pid : uint256) (u : address) :
  let st := run verifyInput txs initial in
  exists_ (prediction st pid) = false -> bet st pid u = zeroBet.
Proof.
  intros st Hex. pose proof (Inv_reachable verifyInput txs) as HI. fold st in HI.
  unfold bet. destruct (_bets st !! (pid, u)) as [b|] eqn:Hb; [|done].
  destruct (inv_bets _ _ _ HI _ _ _ Hb) as (_ & He & _). congruence.
Qed.

Lemma create_succeeds (txs : list Tx) who ts nm opts id st' :
  let st := run verifyInput txs initial in
  createPrediction who ts nm opts st = Ok id st' ->
  id = _nextPredictionId st
  /\ st' = created who ts nm opts st
  /\ is_empty nm = false
  /\ (2 <= length opts <= 4)%nat
  /\ existsb is_empty opts = false
  /\ prediction st id = zeroPrediction.
Proof.
  intros st. pose proof (Inv_reachable verifyInput txs) as HI. fold st in HI.
  rewrite createPrediction_run.
  destruct (is_empty nm); [done|].
  destruct (_ || _) eqn:Hlen; [done|].
  destruct (existsb is_empty opts); [done|].
  destruct (_ =? _); [done|]. intros [= <- <-].
  apply orb_false_iff in Hlen as [H2 H4]. apply Nat.ltb_ge in H2, H4.
  repeat split; try done. apply (Inv_fresh_zero _ _ _ _ HI). lia.
Qed.

(** X6: a creation read back.  When [createPrediction] succeeds in a reachable
    state, the name was not empty, there were 2 to 4 options and none was
    empty; the id returned is the old count plus one and is the new count;
    [getPredictionMetadata] of that id returns the name, options, caller and
    timestamp given; [getEncryptedTotals] returns one encrypted zero per
    option and an encrypted zero pool; and nobody has a bet on it. *)
Theorem create_then_read (txs : list Tx) (who : address) (ts : uint256)
    (nm : string) (opts : list string) (id : uint256) (st' : State) :
  let st := run verifyInput txs initial in
  createPrediction who ts nm opts st = Ok id st' ->
  (nm <> "" /\ (2 <= length opts <= 4)%nat /\ ~ In "" opts)
  /\ id = N.of_nat (S (length (_predictionIds st)))
  /\ getPredictionCount st' = Ok id st'
  /\ getPredictionMetadata id st' = Ok (mkSummary id nm opts who ts) st'
  /\ getEncryptedTotals id st'
     = Ok (replicate (length opts) (HEncode EUint64 0), HEncode EUint64 0) st'
  /\ forall u, getUserBet id u st' = Ok (HNull, HNull, false) st'.
Proof.
  intros st Hok.
  destruct (create_succeeds txs _ _ _ _ _ _ Hok) as (Hid & Hst & Hnm & Hlen & Hopt & Hzero).
  fold st in Hid, Hst, Hzero. subst id st'.
  destruct (count_reachable txs) as [Hnext _]. fold st in Hnext.
  assert (Hnew : prediction (created who ts nm opts st) (_nextPredictionId st)
            = mkPrediction nm opts (replicate (length opts) (HEncode EUint64 0))
                (HEncode EUint64 0) who ts true).
  { rewrite prediction_created_new. cbv zeta. by rewrite Hzero. }
  split; [|split; [|split; [|split; [|split]]]].
  - split; [|split; [done|]].
    + intros E. apply is_empty_spec in E. congruence.
    + intros E. apply existsb_is_empty in E. congruence.
  - lia.
  - rewrite getPredictionCount_run. cbn [created _predictionIds].
    rewrite length_app. cbn [length]. apply (f_equal (fun n => Ok n _)). fold st. lia.
  - rewrite getPredictionMetadata_run, Hnew. cbn [exists_].
    unfold slot_summary. by rewrite Hnew.
  - by rewrite getEncryptedTotals_run, Hnew.
  - intros u. rewrite getUserBet_run, Hnew. cbn [exists_].
    change (bet (created who ts nm opts st) ?q ?w) with (bet st q w).
    rewrite (no_bet_on_missing txs); [done|]. fold st. by rewrite Hzero.
Qed.

(** X7: a creation touches nothing else.  When [createPrediction] succeeds in
    a reachable state, every prediction that existed keeps its whole record,
    every stored bet and the value held are as before, and [listPredictions]
    returns the previous listing followed by the new summary. *)
Theorem create_frame (txs : list Tx) (who : address) (ts : uint256)
    (nm : string) (opts : list string) (id : uint256) (st' : State) :
  let st := run verifyInput txs initial in
  createPrediction who ts nm opts st = Ok id st' ->
  (forall q, exists_ (prediction st q) = true -> prediction st' q = prediction st q)
  /\ (forall q u, bet st' q u = bet st q u)
  /\ balance st' = balance st
  /\ forall l, listPredictions st = Ok l st ->
       listPredictions st' = Ok (l ++ [mkSummary id nm opts who ts]) st'.
Proof.
  intros st Hok.
  destruct (create_succeeds txs _ _ _ _ _ _ Hok) as (Hid & Hst & Hnm & Hlen & Hopt & Hzero).
  fold st in Hid, Hst, Hzero. subst id st'.
  split; [|split; [done|split; [done|]]].
  - intros q Hq. apply prediction_created_old. intros ->. by rewrite Hzero in Hq.
  - intros l. rewrite !listPredictions_run. intros [= <-].
    apply (f_equal (fun l => Ok l _)). cbn [created _predictionIds].
    rewrite map_app. cbn [map]. f_equal.
    + apply map_ext_in. intros q Hq. apply slot_summary_created_old.
      intros ->. apply (listed_ids_exist verifyInput txs) in Hq. fold st in Hq.
      by rewrite Hzero in Hq.
    + unfold slot_summary. rewrite prediction_created_new. cbv zeta.
      by rewrite Hzero.
Qed.

(** * What a bet leaves behind *)

(** X8: a bet touches one prediction and one bet record.  When
    [placeEncryptedBet] succeeds, in any state, the stake was between 1 and
    the largest 64-bit value; every other prediction keeps its whole record
    and the prediction bet on keeps its name, options, creator, timestamp and
    the number of its totals; every other stored bet is as before; the ids
    and the listing are unchanged; and exactly one [BetPlaced] event is
    added, carrying the stake and the two handles now stored for the
    caller, the first of which decrypts to the stake. *)
Theorem bet_frame (who : address) (value pid : uint256)
    (raw : externalEuint8) (proof : bytes) (st st' : State) :
  placeEncryptedBet verifyInput who value pid raw proof st = Ok tt st' ->
  0 < value <= uint64_max
  /\ (forall q, q <> pid -> prediction st' q = prediction st q)
  /\ (forall q, slot_summary st' q = slot_summary st q)
  /\ length (optionTotals (prediction st' pid))
     = length (optionTotals (prediction st pid))
  /\ (forall q u, (q, u) <> (pid, who) -> bet st' q u = bet st q u)
  /\ _predictionIds st' = _predictionIds st
  /\ (forall l, listPredictions st = Ok l st -> listPredictions st' = Ok l st')
  /\ exists a s,
       eventLog st' = eventLog st ++ [BetPlaced pid who a s value]
       /\ bet st' pid who = mkBetInfo a s true
       /\ decrypt a = value.
Proof.
  rewrite placeEncryptedBet_run. cbv zeta.
  destruct (negb _); [done|]. destruct (_ =? _)%nat; [done|].
  destruct (_ || _) eqn:Hv; [done|]. destruct (betExists _); [done|].
  destruct (verifyInput raw proof) as [v|]; [|done]. intros [= <-].
  apply orb_false_iff in Hv as [H0 Hmax].
  apply N.eqb_neq in H0. apply N.ltb_ge in Hmax.
  split; [lia|]. split; [|split; [|split; [|split; [|split; [|split]]]]].
  - intros q Hq. by apply prediction_placed_other.
  - intros q. apply slot_summary_placed.
  - rewrite prediction_placed_same. cbn [optionTotals].
    apply aggregate_totals_length.
  - intros q u Hq. by apply bet_placed_other.
  - reflexivity.
  - intros l. rewrite !listPredictions_run. intros [= <-].
    apply (f_equal (fun l => Ok l _)). cbn [placed _predictionIds].
    apply map_ext. intros q. apply slot_summary_placed.
  - eexists _, _. split; [reflexivity|]. split; [apply bet_placed_same|].
    cbn [decrypt bitwidth]. rewrite N.Div0.mod_mod. by apply mod_small_64.
Qed.

(** * What never changes *)

Lemma bet_kept_by_step (tx : Tx) (st : State) (pid : uint256) (u : address) :
  betExists (bet st pid u) = true ->
  bet (step verifyInput st tx) pid u = bet st pid u.
Proof.
  intros Hb. unfold step.
  destruct (execute_transition verifyInput tx st)
    as [nm opts Hcall _ _ Hlen _ _ | q raw proof v Hcall Hex _ Hval Hnobet Hver
       | e | v Hview]; try done.
  rewrite bet_placed_other; [done|]. intros [= -> ->]. congruence.
Qed.

(** X9: a bet is permanent.  Once an identity has a bet on a prediction, no
    sequence of transactions changes the stored record: its two handles and
    its flag stay what they were.  This holds from any state. *)
Theorem bets_are_permanent (more : list Tx) (st : State)
    (pid : uint256) (u : address) :
  betExists (bet st pid u) = true ->
  bet (run verifyInput more st) pid u = bet st pid u.
Proof.
  revert st. induction more as [|tx more IH]; intros st Hb; [done|].
  unfold run. cbn [fold_left].
  change (fold_left (step verifyInput) more ?s) with (run verifyInput more s).
  rewrite IH; [by apply bet_kept_by_step|]. by rewrite bet_kept_by_step.
Qed.

Lemma receipts_app (txs more : list Tx) : forall st,
  receipts verifyInput (txs ++ more) st
  = receipts verifyInput txs st
    ++ receipts verifyInput more (run verifyInput txs st).
Proof.
  induction txs as [|tx txs IH]; intros st; [done|].
  cbn [app receipts]. by rewrite IH.
Qed.

Lemma run_app (txs more : list Tx) (st : State) :
  run verifyInput (txs ++ more) st = run verifyInput more (run verifyInput txs st).
Proof. unfold run. apply fold_left_app. Qed.

(** X10: a prediction is permanent.  A prediction that exists in a reachable
    state exists after any further transactions, with the same name,
    options, creator and creation time, and with as many totals. *)
Theorem metadata_is_permanent (txs more : list Tx) (pid : uint256) :
  let st := run verifyInput txs initial in
  let st' := run verifyInput more st in
  exists_ (prediction st pid) = true ->
  exists_ (prediction st' pid) = true
  /\ name (prediction st' pid) = name (prediction st pid)
  /\ options (prediction st' pid) = options (prediction st pid)
  /\ creator (prediction st' pid) = creator (prediction st pid)
  /\ createdAt (prediction st' pid) = createdAt (prediction st pid)
  /\ length (optionTotals (prediction st' pid))
     = length (optionTotals (prediction st pid)).
Proof.
  intros st st' Hex.
  pose proof (Inv_reachable verifyInput txs) as HI. fold st in HI.
  pose proof (Inv_reachable verifyInput (txs ++ more)) as HI'.
  rewrite run_app, receipts_app in HI'. fold st st' in HI'.
  destruct (lengths_reachable verifyInput txs pid) as [Hlen _]. fold st in Hlen.
  destruct (lengths_reachable verifyInput (txs ++ more) pid) as [Hlen' _].
  rewrite run_app in Hlen'. fold st st' in Hlen'.
  assert (Hin : In pid (map summaryId (creations (receipts verifyInput txs initial)))).
  { rewrite <- (inv_ids _ _ _ HI).
    destruct (count_reachable txs) as [_ Hids]. fold st in Hids. rewrite Hids.
    apply (exists_range txs pid) in Hex. fold st in Hex.
    apply in_map_iff. exists (N.to_nat pid). split; [lia|]. apply in_seq. lia. }
  apply in_map_iff in Hin as (s & Hid & Hs).
  pose proof (inv_created _ _ _ HI s Hs) as Hslot.
  pose proof (inv_created _ _ _ HI' s) as Hslot'.
  rewrite creations_app in Hslot'.
  specialize (Hslot' (in_or_app _ _ _ (or_introl Hs))).
  rewrite Hid in Hslot, Hslot'. unfold slot_summary in Hslot, Hslot'.
  rewrite Hex in Hslot.
  destruct (exists_ (prediction st' pid)).
  - rewrite <- Hslot in Hslot'. injection Hslot' as Hn Ho Hc Ht.
    rewrite Hlen, Hlen', Ho. done.
  - exfalso. rewrite <- Hslot' in Hid. cbn in Hid.
    apply (exists_range txs pid) in Hex. lia.
Qed.

(** * Events *)

Lemma created_event_backed (log : list (Tx * Outcome)) id who nm n :
  In (PredictionCreated id who nm n) (expected_events verifyInput log) ->
  exists opts ts,
    In (mkSummary id nm opts who ts) (creations log) /\ n = N.of_nat (length opts).
Proof.
  unfold expected_events, creations. rewrite !in_flat_map.
  intros ([tx o] & Hin & Hev). unfold expected_event in Hev. cbn [fst snd] in Hev.
  destruct (call tx) as [nm' opts|pid raw proof| | | | |] eqn:Hcall; try done.
  - destruct o as [[| id' | | | |]|]; try done.
    destruct Hev as [[= <- <- <- <-]|[]].
    exists opts, (block_timestamp tx). split; [|done].
    apply in_flat_map. exists (tx, Returned (RUint id')). split; [done|].
    unfold creation. cbn [fst snd]. rewrite Hcall. by left.
  - destruct o; [|done]. destruct (verifyInput raw proof); [|done].
    by destruct Hev as [|[]].
Qed.

(** X11: the event log of a reachable state is the history of what went
    through: one [PredictionCreated] per successful creation, with the id
    returned, the caller, the name and the number of options; one
    [BetPlaced] per successful bet, with the prediction, the caller, the
    handles of stake and selection and the stake in clear; in the order of
    the transactions; and nothing for a reverted call or a read. *)
Theorem events_match_history (txs : list Tx) :
  eventLog (run verifyInput txs initial)
  = expected_events verifyInput (receipts verifyInput txs initial).
Proof. apply (inv2_events _ _ _ (Inv2_reachable verifyInput txs)). Qed.

(** X12: every event of a reachable state is backed by the state.  For a
    [BetPlaced] event, [getUserBet] of its prediction and user returns the
    two handles of the event and [true], and the amount handle decrypts to
    the clear amount of the event.  For a [PredictionCreated] event,
    [getPredictionMetadata] of its id returns the creator and name of the
    event and as many options as the event counts. *)
Theorem events_are_backed (txs : list Tx) :
  let st := run verifyInput txs initial in
  (forall pid u a s c,
      In (BetPlaced pid u a s c) (eventLog st) ->
      getUserBet pid u st = Ok (a, s, true) st /\ decrypt a = c)
  /\ (forall id who nm n,
        In (PredictionCreated id who nm n) (eventLog st) ->
        exists opts ts,
          getPredictionMetadata id st = Ok (mkSummary id nm opts who ts) st
          /\ n = N.of_nat (length opts)).
Proof.
  intros st. pose proof (Inv_reachable verifyInput txs) as HI.
  pose proof (Inv2_reachable verifyInput txs) as HJ. fold st in HI, HJ. split.
  - intros pid u a s c Hev.
    destruct (inv2_placed _ _ _ HJ _ _ _ _ _ Hev) as [Hb Hd]. split; [|done].
    assert (Hlook : _bets st !! (pid, u) = Some (bet st pid u)).
    { apply betExists_lookup. by rewrite Hb. }
    destruct (inv_bets _ _ _ HI _ _ _ Hlook) as (_ & Hex & _).
    by rewrite getUserBet_run, Hex, Hb.
  - intros id who nm n Hev. rewrite (inv2_events _ _ _ HJ) in Hev.
    apply created_event_backed in Hev as (opts & ts & Hin & ->).
    exists opts, ts. split; [|done].
    pose proof (inv_created _ _ _ HI _ Hin) as Hslot. cbn [summaryId] in Hslot.
    rewrite getPredictionMetadata_run.
    unfold slot_summary in Hslot |- *.
    destruct (exists_ (prediction st id)); [by rewrite Hslot|].
    injection Hslot as <- _. apply (in_map summaryId) in Hin.
    rewrite (inv_seq _ _ _ HI) in Hin. apply in_ids in Hin. cbn in Hin. lia.
Qed.

(** * Grants *)

(** X13: no handle is returned without its grants.  In every reachable state
    the pool and every total returned by [getEncryptedTotals] have been
    granted to the contract itself and made publicly decryptable, and the
    two handles [getUserBet] returns for an identity that has a bet have
    been granted to the contract itself and to that identity. *)
Theorem returned_handles_are_granted (txs : list Tx) (id : uint256) :
  let st := run verifyInput txs initial in
  (forall totals pool,
      getEncryptedTotals id st = Ok (totals, pool) st ->
      granted_public (fheLog st) pool
      /\ forall t, In t totals -> granted_public (fheLog st) t)
  /\ (forall u a s,
        getUserBet id u st = Ok (a, s, true) st ->
        granted_to (fheLog st) u a /\ granted_to (fheLog st) u s).
Proof.
  intros st. pose proof (Inv2_reachable verifyInput txs) as HJ. fold st in HJ. split.
  - intros totals pool. rewrite getEncryptedTotals_run.
    destruct (exists_ (prediction st id)) eqn:Hex; [|done]. intros [= <- <-].
    apply (inv2_totals _ _ _ HJ id). by apply exists_lookup.
  - intros u a s. rewrite getUserBet_run.
    destruct (exists_ (prediction st id)); [|done]. intros [= <- <- Hb].
    apply betExists_lookup in Hb.
    by destruct (inv2_bets _ _ _ HJ _ _ _ Hb) as (_ & ? & ?).
Qed.

(** X14: what is never made public.  In every reachable state the only
    handles marked publicly decryptable are the encrypted zero and sums;
    the selection and amount handles of a stored bet are not among them; and
    an account that was granted the selection handle of a stored bet has
    itself a stored bet with that selection handle. *)
Theorem selections_stay_private (txs : list Tx) :
  let st := run verifyInput txs initial in
  (forall h, In (OpGrant h Anyone) (fheLog st) ->
             h = HEncode EUint64 0 \/ exists a b, h = HAdd a b)
  /\ (forall pid u,
        betExists (bet st pid u) = true ->
        ~ In (OpGrant (encryptedSelection (bet st pid u)) Anyone) (fheLog st)
        /\ ~ In (OpGrant (encryptedAmount (bet st pid u)) Anyone) (fheLog st))
  /\ (forall pid u w,
        betExists (bet st pid u) = true ->
        In (OpGrant (encryptedSelection (bet st pid u)) (Account w)) (fheLog st) ->
        exists q, betExists (bet st q w) = true
                  /\ encryptedSelection (bet st q w)
                     = encryptedSelection (bet st pid u)).
Proof.
  intros st. pose proof (Inv2_reachable verifyInput txs) as HJ. fold st in HJ.
  split; [apply (inv2_public _ _ _ HJ)|]. split.
  - intros pid u Hb. apply betExists_lookup in Hb.
    destruct (inv2_bets _ _ _ HJ _ _ _ Hb) as ((raw & v & value & -> & Hv) & _).
    cbn [encryptedSelection encryptedAmount].
    split; intros [E|(a & b & E)]%(inv2_public _ _ _ HJ); try discriminate.
    injection E as E. done.
  - intros pid u w Hb. apply betExists_lookup in Hb.
    destruct (inv2_bets _ _ _ HJ _ _ _ Hb) as ((raw & v & value & -> & Hv) & _).
    cbn [encryptedSelection]. apply (inv2_selections _ _ _ HJ).
Qed.

(** * The first bet on a new prediction *)

Lemma decrypt_aggregated_zeros raw v value n :
  (n <= 256)%nat ->
  value <= uint64_max ->
  map decrypt
      (aggregate_totals (HIngest EUint8 raw v) (HEncode EUint64 (value mod 2 ^ 64))
                        (HEncode EUint64 0) 0 (replicate n (HEncode EUint64 0)))
  = map (fun i => if v mod 2 ^ 8 =? N.of_nat i then value else 0) (seq 0 n).
Proof.
  intros Hn Hv.
  rewrite <- (length_replicate n (HEncode EUint64 0)) at 2.
  rewrite <- (aggregate_totals_length (HIngest EUint8 raw v)
                (HEncode EUint64 (value mod 2 ^ 64)) (HEncode EUint64 0)
                (replicate n (HEncode EUint64 0)) 0).
  apply map_decrypt_totals. intros i t. rewrite aggregate_totals_lookup.
  destruct (replicate n (HEncode EUint64 0) !! i) as [z|] eqn:Hz; [|done].
  apply lookup_replicate in Hz as [-> Hi]. cbn. intros [= <-].
  rewrite decrypt_new_total by (lia || done). cbn [decrypt bitwidth].
  rewrite N.Div0.mod_0_l, N.add_0_l.
  destruct (v mod 2 ^ 8 =? N.of_nat i); [by apply mod_small_64|done].
Qed.

(** X15: the first bet on a new prediction, for every input of the kind the
    test suite tries.  After a successful [createPrediction] in a reachable
    state, a bet on the new id with a verified selection and a stake
    between 1 and the largest 64-bit value succeeds; then the pool decrypts
    to the stake, the total of the selected option decrypts to the stake
    and every other total to 0, and [getUserBet] returns handles that
    decrypt to the stake and to the selection. *)
Theorem first_bet_on_new_prediction (txs : list Tx)
    (creator : address) (ts : uint256) (nm : string) (opts : list string)
    (id : uint256) (st1 : State)
    (who : address) (value : uint256) (raw : externalEuint8) (proof : bytes) (v : N) :
  createPrediction creator ts nm opts (run verifyInput txs initial) = Ok id st1 ->
  0 < value <= uint64_max ->
  verifyInput raw proof = Some v ->
  exists st2,
    placeEncryptedBet verifyInput who value id raw proof st1 = Ok tt st2
    /\ decrypt (encryptedPool (prediction st2 id)) = value
    /\ map decrypt (optionTotals (prediction st2 id))
       = map (fun i => if v mod 2 ^ 8 =? N.of_nat i then value else 0)
             (seq 0 (length opts))
    /\ exists a s, getUserBet id who st2 = Ok (a, s, true) st2
                   /\ decrypt a = value /\ decrypt s = v mod 2 ^ 8.
Proof.
  intros Hok Hval Hver.
  destruct (create_succeeds txs _ _ _ _ _ _ Hok) as (Hid & Hst & Hnm & Hlen & Hopt & Hzero).
  set (st := run verifyInput txs initial) in *. subst id st1.
  assert (Hnew : prediction (created creator ts nm opts st) (_nextPredictionId st)
            = mkPrediction nm opts (replicate (length opts) (HEncode EUint64 0))
                (HEncode EUint64 0) creator ts true).
  { rewrite prediction_created_new. cbv zeta. by rewrite Hzero. }
  assert (Hnobet : bet (created creator ts nm opts st) (_nextPredictionId st) who
            = zeroBet).
  { change (bet (created creator ts nm opts st) ?q ?w) with (bet st q w).
    apply (no_bet_on_missing txs). fold st. by rewrite Hzero. }
  eexists. split.
  { rewrite placeEncryptedBet_run. cbv zeta. rewrite Hnew, Hnobet.
    cbn [exists_ negb optionTotals betExists zeroBet]. rewrite length_replicate.
    destruct (length opts) eqn:E; [lia|]. cbn [Nat.eqb].
    replace ((value =? 0) || (uint64_max <? value)) with false.
    - rewrite Hver. reflexivity.
    - symmetry. apply orb_false_iff. rewrite N.eqb_neq, N.ltb_ge. lia. }
  rewrite prediction_placed_same, Hnew. cbv zeta.
  cbn [encryptedPool optionTotals].
  split; [|split].
  - cbn [decrypt bitwidth]. rewrite N.Div0.mod_0_l, N.add_0_l, !N.Div0.mod_mod.
    apply mod_small_64, Hval.
  - apply decrypt_aggregated_zeros; [lia|apply Hval].
  - eexists _, _. rewrite getUserBet_run, prediction_placed_same, Hnew.
    cbn [exists_]. rewrite bet_placed_same.
    cbn [encryptedAmount encryptedSelection betExists]. split; [reflexivity|].
    cbn [decrypt bitwidth]. split; [|done].
    rewrite N.Div0.mod_mod. apply mod_small_64, Hval.
Qed.

End Reads.

(** * The creation form *)

Lemma filter_from_length {A} (keep : A -> nat -> bool) (l : list A) (i : nat) :
  (length (filter_from keep i l) <= length l)%nat.
Proof.
  revert i. induction l as [|x l IH]; intros i; cbn; [lia|].
  specialize (IH (S i)). destruct (keep x i); cbn; lia.
Qed.

Lemma filter_from_value {A} (keep : A -> bool) (l : list A) (i : nat) :
  filter_from (fun x _ => keep x) i l = List.filter keep l.
Proof.
  revert i. induction l as [|x l IH]; intros i; cbn; [done|].
  by rewrite IH.
Qed.

Lemma filter_from_delete {A} (index : nat) (l : list A) (i : nat) :
  filter_from (fun _ j => negb (j =? index)%nat) i l
  = if (index <? i)%nat then l else delete (index - i)%nat l.
Proof.
  revert i. induction l as [|x l IH]; intros i; cbn [filter_from].
  - by destruct (index <? i)%nat.
  - rewrite IH.
    destruct (Nat.ltb_spec index (S i)) as [Hlt|Hge];
      destruct (Nat.ltb_spec index i) as [Hlt'|Hge'];
      destruct (Nat.eqb_spec i index) as [E|Hne]; cbn [negb]; try lia; try done.
    + subst i. by rewrite Nat.sub_diag.
    + replace (index - i)%nat with (S (index - S i)) by lia. done.
Qed.

Lemma delete_length_bounds {A} (i : nat) (l : list A) :
  (length l - 1 <= length (delete i l) <= length l)%nat.
Proof.
  revert i. induction l as [|x l IH]; intros [|i]; simpl; try lia.
  specialize (IH i). simpl in IH. lia.
Qed.

Section FormFacts.
  Context {jsstring : Type}.
  Variable emptyString : jsstring.
  Variable trim : jsstring -> jsstring.
  Variable jslength : jsstring -> nat.
  Variable utf8 : jsstring -> string.

Lemma handleOptionChange_insert (index : nat) (value : jsstring) (existing : list jsstring) :
  handleOptionChange jsstring index value existing = <[index := value]> existing.
Proof.
  unfold handleOptionChange. revert index.
  induction existing as [|x l IH]; intros index; [done|].
  rewrite imap_cons. destruct index as [|index]; cbn.
  - f_equal. clear IH. induction l as [|y l IH] using rev_ind; [done|].
    rewrite imap_app, IH. cbn. done.
  - f_equal. apply IH.
Qed.

Lemma removeOption_delete (index : nat) (options existing : list jsstring) :
  removeOption jsstring index options existing
  = if (length options <=? MIN_OPTIONS)%nat then existing else delete index existing.
Proof.
  unfold removeOption, js_filter. rewrite filter_from_delete.
  cbn. by rewrite Nat.sub_0_r.
Qed.

Lemma form_step_bounded (s : FormState jsstring) (ev : FormEvent jsstring) :
  (MIN_OPTIONS <= length (form_options s) <= MAX_OPTIONS)%nat ->
  (MIN_OPTIONS <= length (form_options (form_step jsstring emptyString s ev))
   <= MAX_OPTIONS)%nat.
Proof.
  unfold MIN_OPTIONS, MAX_OPTIONS. intros Hs.
  destruct ev as [value|index value| |index|]; cbn [form_step form_options]; [done| | | |].
  - rewrite handleOptionChange_insert. by rewrite length_insert.
  - unfold addOption, MAX_OPTIONS.
    destruct (Nat.leb_spec 4 (length (form_options s))); [done|].
    rewrite length_app. cbn. lia.
  - rewrite removeOption_delete. unfold MIN_OPTIONS.
    destruct (Nat.leb_spec (length (form_options s)) 2); [done|].
    pose proof (delete_length_bounds index (form_options s)). lia.
  - unfold resetForm, MIN_OPTIONS. cbn. lia.
Qed.

Lemma form_run_bounded (events : list (FormEvent jsstring)) (s : FormState jsstring) :
  (MIN_OPTIONS <= length (form_options s) <= MAX_OPTIONS)%nat ->
  (MIN_OPTIONS <= length (form_options (form_run jsstring emptyString events s))
   <= MAX_OPTIONS)%nat.
Proof.
  revert s. induction events as [|ev events IH]; intros s Hs; [done|].
  cbn. apply IH. by apply form_step_bounded.
Qed.

Lemma trimmedOptions_spec (options : list jsstring) :
  trimmedOptions jsstring trim jslength options
  = List.filter (fun o => (0 <? jslength o)%nat) (map trim options).
Proof. unfold trimmedOptions, js_filter. apply filter_from_value. Qed.

Lemma trimmedOptions_length (options : list jsstring) :
  (length (trimmedOptions jsstring trim jslength options) <= length options)%nat.
Proof.
  unfold trimmedOptions, js_filter.
  etransitivity; [apply filter_from_length|]. by rewrite length_map.
Qed.

Lemma nonblank_encoded (os : list jsstring) :
  (forall s, String.length (utf8 s) = 0%nat <-> jslength s = 0%nat) ->
  existsb is_empty
          (map utf8 (List.filter (fun o => (0 <? jslength o)%nat) os)) = false.
Proof.
  intros Hutf. induction os as [|o os IH]; [done|]. cbn [List.filter].
  destruct (Nat.ltb_spec 0 (jslength o)) as [Hpos|Hzero]; [|done].
  cbn [map existsb]. rewrite IH, orb_false_r. unfold is_empty.
  apply Nat.eqb_neq. rewrite Hutf. lia.
Qed.

(** X16: the form always shows between two and four option rows.  Whatever
    the user types and clicks, and however often a submission resets the
    form, the list of option rows has at least [MIN_OPTIONS] and at most
    [MAX_OPTIONS] entries; typing in a row replaces that row only, and
    removing a row, when more than two are shown, deletes that row only. *)
Theorem form_rows_bounded (events : list (FormEvent jsstring)) :
  let s := form_run jsstring emptyString events (initialForm jsstring emptyString) in
  (2 <= length (form_options s) <= 4)%nat
  /\ (forall index value,
        form_options (form_step jsstring emptyString s (OptionInput index value))
        = <[index := value]> (form_options s))
  /\ (forall index,
        form_options (form_step jsstring emptyString s (RemoveClicked index))
        = if (length (form_options s) <=? 2)%nat then form_options s
          else delete index (form_options s)).
Proof.
  intros s. split; [|split].
  - apply (form_run_bounded events). cbn. unfold MIN_OPTIONS, MAX_OPTIONS. lia.
  - intros index value. apply handleOptionChange_insert.
  - intros index. apply removeOption_delete.
Qed.

(** X17: what a submit sends.  When [handleSubmit] gets as far as sending
    [createPrediction], the title sent is the trimmed title and is not
    empty, and the options sent are the trimmed rows that are not empty, in
    the order of the rows, between two and four of them.  For a form the
    user can reach, the message about the number of options is shown exactly
    when a wallet is connected and fewer than two rows are non-blank: the
    test for more than four never fires. *)
Theorem submit_sends_valid (events : list (FormEvent jsstring))
    (address signerPromise contractAddressOk signer : bool) :
  let s := form_run jsstring emptyString events (initialForm jsstring emptyString) in
  let sent := List.filter (fun o => (0 <? jslength o)%nat) (map trim (form_options s)) in
  (forall title options,
      handleSubmit jsstring trim jslength address signerPromise contractAddressOk signer s
      = SendCreate title options ->
      title = trim (form_title s)
      /\ jslength title <> 0%nat
      /\ options = sent
      /\ (2 <= length options <= 4)%nat
      /\ Forall (fun o => jslength o <> 0%nat) options)
  /\ (handleSubmit jsstring trim jslength address signerPromise contractAddressOk signer s
      = ShowError "Enter between 2 and 4 option labels."
      <-> address = true /\ signerPromise = true /\ (length sent < 2)%nat).
Proof.
  intros s sent.
  assert (Hrows : (2 <= length (form_options s) <= 4)%nat).
  { apply (form_run_bounded events). cbn. unfold MIN_OPTIONS, MAX_OPTIONS. lia. }
  assert (Hsent : trimmedOptions jsstring trim jslength (form_options s) = sent)
    by apply trimmedOptions_spec.
  assert (Hle : (length sent <= 4)%nat).
  { rewrite <- Hsent. etransitivity; [apply trimmedOptions_length|lia]. }
  unfold handleSubmit. cbv zeta. rewrite Hsent. unfold MIN_OPTIONS, MAX_OPTIONS.
  replace (4 <? length sent)%nat with false by (symmetry; apply Nat.ltb_ge; lia).
  rewrite orb_false_r. split.
  - intros title options.
    destruct (negb address || negb signerPromise); [done|].
    destruct (Nat.ltb_spec (length sent) 2) as [|Hge]; [done|].
    destruct (Nat.eqb_spec (jslength (trim (form_title s))) 0) as [|Hne]; [done|].
    destruct (negb contractAddressOk); [done|]. destruct (negb signer); [done|].
    intros [= <- <-]. repeat split; try done; try lia.
    subst sent. apply List.Forall_forall. intros o [_ Ho]%List.filter_In.
    apply Nat.ltb_lt in Ho. lia.
  - destruct address, signerPromise; cbn [negb orb];
      try (split; [discriminate|intros (? & ? & _); discriminate]).
    destruct (Nat.ltb_spec (length sent) 2) as [Hlt|Hge]; [done|].
    split; [|lia].
    destruct (jslength (trim (form_title s)) =? 0)%nat; [discriminate|].
    destruct (negb contractAddressOk); [discriminate|].
    by destruct (negb signer).
Qed.

(** X18: the contract accepts what the form sends.  If the encoding of
    strings maps exactly the empty string to the empty byte string, a call
    sent by [handleSubmit], whatever the form holds, passes the three
    validations of [createPrediction] in every state of the contract: it
    returns the next id, and can only fail on the overflow of the
    counter. *)
Theorem form_call_is_accepted (s : FormState jsstring)
    (address signerPromise contractAddressOk signer : bool)
    (title : jsstring) (options : list jsstring)
    (who : N) (ts : N) (st : State) :
  (forall x, String.length (utf8 x) = 0%nat <-> jslength x = 0%nat) ->
  handleSubmit jsstring trim jslength address signerPromise contractAddressOk signer s
  = SendCreate title options ->
  create_call jsstring utf8 who ts title options st
  = if _nextPredictionId st =? uint256_max then Revert (Panic 17)
    else Ok (_nextPredictionId st)
            (created who ts (utf8 title) (map utf8 options) st).
Proof.
  intros Hutf. unfold handleSubmit. cbv zeta. rewrite trimmedOptions_spec.
  destruct (negb address || negb signerPromise); [done|].
  unfold MIN_OPTIONS, MAX_OPTIONS.
  destruct (_ || _) eqn:Hcount; [done|].
  destruct (Nat.eqb_spec (jslength (trim (form_title s))) 0) as [|Hne]; [done|].
  destruct (negb contractAddressOk); [done|]. destruct (negb signer); [done|].
  intros [= <- <-]. unfold create_call. rewrite createPrediction_run.
  replace (is_empty (utf8 (trim (form_title s)))) with false
    by (symmetry; apply Nat.eqb_neq; rewrite Hutf; done).
  rewrite length_map, Hcount. by rewrite nonblank_encoded.
Qed.

(** X19: what the creation task can run into.  If the encoding of strings
    maps exactly the empty string to the empty byte string, the call built
    by [task:create-prediction] is never rejected for an empty option: it is
    rejected for an empty name, else for fewer than two or more than four
    non-blank parts, and else returns the next id. *)
Theorem task_call_outcome (name : jsstring) (parts : list jsstring)
    (who : N) (ts : N) (st : State) :
  (forall s, String.length (utf8 s) = 0%nat <-> jslength s = 0%nat) ->
  let options := task_options jsstring trim jslength parts in
  create_call jsstring utf8 who ts name options st
  = if (jslength name =? 0)%nat then Revert EmptyName
    else if (length options <? 2)%nat || (4 <? length options)%nat
         then Revert InvalidOptionsCount
    else if _nextPredictionId st =? uint256_max then Revert (Panic 17)
    else Ok (_nextPredictionId st) (created who ts (utf8 name) (map utf8 options) st).
Proof.
  intros Hutf options. unfold create_call. rewrite createPrediction_run.
  unfold is_empty at 1.
  destruct (Nat.eqb_spec (jslength name) 0) as [Hz|Hnz].
  - apply Hutf in Hz. by rewrite Hz.
  - replace (String.length (utf8 name) =? 0)%nat with false
      by (symmetry; apply Nat.eqb_neq; rewrite Hutf; done).
    rewrite length_map. destruct (_ || _); [done|].
    unfold options, task_options, js_filter. rewrite filter_from_value.
    by rewrite nonblank_encoded.
Qed.

End FormFacts.

(** * The copies returned by the views *)

(** X1: the arrays a view returns are the stored ones.  The copy loops
    [_copyOptions] and [_copyEncryptedTotals] return a list equal to their
    argument: same length, same entries, same order. *)
Theorem copies_are_faithful (source : list string) (totals : list euint64) :
  _copyOptions source = source /\ _copyEncryptedTotals totals = totals.
Proof. split; [apply _copyOptions_id|apply _copyEncryptedTotals_id]. Qed.

(** * Further scenarios *)

Example replayed_listing :
  listPredictions played
  = Ok [mkSummary 1 "Weather" ["Sunny"; "Rainy"] alice 100] played.
Proof. vm_compute. reflexivity. Qed.

(** Prediction 1 is listed first; prediction 2 does not exist. *)
Lemma metadata_matches_listing_witness :
  getPredictionMetadata 1 played
  = Ok (mkSummary 1 "Weather" ["Sunny"; "Rainy"] alice 100) played
  /\ getPredictionMetadata 2 played = Revert InvalidPrediction.
Proof.
  destruct (metadata_matches_listing sampleVerifier [weather; aliceOnRainy; bobOnSunny])
    as [H1 H2].
  split.
  - exact (proj1 (H2 _ 0%nat _ replayed_listing eq_refl)).
  - apply H1. right. vm_compute. reflexivity.
Defined.

(** Prediction 1 has two options and two totals. *)
Lemma totals_match_options_witness :
  length (optionTotals (prediction played 1)) = 2%nat.
Proof.
  destruct (totals_match_options sampleVerifier [weather; aliceOnRainy; bobOnSunny] 1)
    as [_ H].
  destruct (H (mkSummary 1 "Weather" ["Sunny"; "Rainy"] alice 100)) as (_ & Hlen & _);
    [vm_compute; reflexivity|].
  exact Hlen.
Defined.

(** Bob's creation of a second prediction, read back. *)
Lemma create_then_read_witness :
  getPredictionMetadata 2
    (run sampleVerifier [weather; aliceOnRainy; bobOnSunny; football] initial)
  = Ok (mkSummary 2 "Match" ["A"; "B"; "C"] bob 200)
       (run sampleVerifier [weather; aliceOnRainy; bobOnSunny; football] initial).
Proof.
  destruct (create_then_read sampleVerifier [weather; aliceOnRainy; bobOnSunny]
              bob 200 "Match" ["A"; "B"; "C"] 2
              (run sampleVerifier [weather; aliceOnRainy; bobOnSunny; football] initial))
    as (_ & _ & _ & H & _); [vm_compute; reflexivity|].
  exact H.
Defined.

(** Bob's creation leaves Alice's bet and the value held as they were and
    adds one entry to the listing. *)
Lemma create_frame_witness :
  bet (run sampleVerifier [weather; aliceOnRainy; bobOnSunny; football] initial) 1 alice
  = bet played 1 alice
  /\ balance (run sampleVerifier [weather; aliceOnRainy; bobOnSunny; football] initial)
     = balance played
  /\ listPredictions
       (run sampleVerifier [weather; aliceOnRainy; bobOnSunny; football] initial)
     = Ok ([mkSummary 1 "Weather" ["Sunny"; "Rainy"] alice 100]
             ++ [mkSummary 2 "Match" ["A"; "B"; "C"] bob 200])
          (run sampleVerifier [weather; aliceOnRainy; bobOnSunny; football] initial).
Proof.
  destruct (create_frame sampleVerifier [weather; aliceOnRainy; bobOnSunny]
              bob 200 "Match" ["A"; "B"; "C"] 2
              (run sampleVerifier [weather; aliceOnRainy; bobOnSunny; football] initial))
    as (_ & Hb & Hbal & Hl); [vm_compute; reflexivity|].
  split; [apply Hb|]. split; [exact Hbal|].
  apply Hl. exact replayed_listing.
Defined.

(** Carol's bet of 9, once the value is credited, leaves the ids and Alice's
    bet as they were. *)
Lemma bet_frame_witness :
  _predictionIds
    (run sampleVerifier [weather; aliceOnRainy; bobOnSunny; carolOnSunny] initial)
  = _predictionIds (credit 9 played)
  /\ bet (run sampleVerifier [weather; aliceOnRainy; bobOnSunny; carolOnSunny] initial)
         1 alice
     = bet (credit 9 played) 1 alice.
Proof.
  destruct (bet_frame sampleVerifier carol 9 1 80 [0] (credit 9 played)
              (run sampleVerifier [weather; aliceOnRainy; bobOnSunny; carolOnSunny] initial))
    as (_ & _ & _ & _ & Hb & Hids & _); [vm_compute; reflexivity|].
  split; [exact Hids|]. apply Hb. discriminate.
Defined.

(** Alice's bet survives her second attempt and Bob's creation. *)
Lemma bets_are_permanent_witness :
  bet (run sampleVerifier [aliceAgain; football] played) 1 alice = bet played 1 alice.
Proof.
  apply (bets_are_permanent sampleVerifier [aliceAgain; football] played 1 alice).
  vm_compute. reflexivity.
Defined.

(** Prediction 1 keeps its name through Carol's bet and Bob's creation. *)
Lemma metadata_is_permanent_witness :
  name (prediction (run sampleVerifier [carolOnSunny; football] played) 1)
  = name (prediction played 1).
Proof.
  destruct (metadata_is_permanent sampleVerifier [weather; aliceOnRainy; bobOnSunny]
              [carolOnSunny; football] 1) as (_ & H & _); [vm_compute; reflexivity|].
  exact H.
Defined.

(** The event of Alice's bet and what [getUserBet] returns for her. *)
Lemma events_are_backed_witness :
  getUserBet 1 alice played
  = Ok (HEncode EUint64 5, HIngest EUint8 77 1, true) played.
Proof.
  destruct (events_are_backed sampleVerifier [weather; aliceOnRainy; bobOnSunny])
    as [H _].
  apply (H 1 alice (HEncode EUint64 5) (HIngest EUint8 77 1) 5).
  vm_compute. right. left. reflexivity.
Defined.

(** Alice may decrypt the two handles of her bet. *)
Lemma returned_handles_are_granted_witness :
  granted_to (fheLog played) alice (HEncode EUint64 5)
  /\ granted_to (fheLog played) alice (HIngest EUint8 77 1).
Proof.
  destruct (returned_handles_are_granted sampleVerifier
              [weather; aliceOnRainy; bobOnSunny] 1) as [_ H].
  apply (H alice (HEncode EUint64 5) (HIngest EUint8 77 1)).
  vm_compute. reflexivity.
Defined.

(** Alice's selection is not publicly decryptable. *)
Lemma selections_stay_private_witness :
  ~ In (OpGrant (encryptedSelection (bet played 1 alice)) Anyone) (fheLog played).
Proof.
  destruct (selections_stay_private sampleVerifier [weather; aliceOnRainy; bobOnSunny])
    as (_ & H & _).
  apply (H 1 alice). vm_compute. reflexivity.
Defined.

(** The first bet of the sample: 5 on Rainy. *)
Lemma first_bet_on_new_prediction_witness :
  exists st2,
    placeEncryptedBet sampleVerifier alice 5 1 77 [1]
                      (run sampleVerifier [weather] initial) = Ok tt st2
    /\ map decrypt (optionTotals (prediction st2 1)) = [0; 5].
Proof.
  destruct (first_bet_on_new_prediction sampleVerifier [] alice 100
              "Weather" ["Sunny"; "Rainy"] 1 (run sampleVerifier [weather] initial)
              alice 5 77 [1] 1) as (st2 & H1 & _ & H3 & _).
  - vm_compute. reflexivity.
  - vm_compute. split; [reflexivity|discriminate].
  - reflexivity.
  - exists st2. split; [exact H1|exact H3].
Defined.

(** Three rows, one left blank: the form sends the two labels, trimmed. *)
Lemma submit_sends_valid_witness :
  handleSubmit string dropSpaces String.length true true true true
    (form_run string "" sampleInputs (initialForm string ""))
  = SendCreate "Who wins?" ["Yes"; "No"]
  /\ String.length "Who wins?" <> 0%nat.
Proof.
  destruct (submit_sends_valid "" dropSpaces String.length sampleInputs
              true true true true) as [H _].
  destruct (H "Who wins?" ["Yes"; "No"]) as (_ & Hn & _); [vm_compute; reflexivity|].
  split; [vm_compute; reflexivity|exact Hn].
Defined.

(** What the form sends after the sample inputs becomes prediction 2. *)
Lemma form_call_is_accepted_witness :
  create_call string (fun s => s) carol 300 "Who wins?" ["Yes"; "No"] played
  = Ok 2 (created carol 300 "Who wins?" ["Yes"; "No"] played).
Proof.
  rewrite (form_call_is_accepted dropSpaces String.length (fun s => s)
             (form_run string "" sampleInputs (initialForm string ""))
             true true true true "Who wins?" ["Yes"; "No"] carol 300 played).
  - vm_compute. reflexivity.
  - intros x. reflexivity.
  - vm_compute. reflexivity.
Defined.

(** The task with the argument split into [" Yes"], [""] and ["No"]. *)
Lemma task_call_outcome_witness :
  create_call string (fun s => s) carol 300 "Who wins?"
    (task_options string dropSpaces String.length [" Yes"; ""; "No"]) played
  = Ok 2 (created carol 300 "Who wins?" ["Yes"; "No"] played).
Proof.
  rewrite (task_call_outcome dropSpaces String.length (fun s => s)
             "Who wins?" [" Yes"; ""; "No"] carol 300 played).
  - vm_compute. reflexivity.
  - intros x. reflexivity.
Defined.
